(** * one-promise: tracking the most recently created promise

    A shallow embedding of [src/index.ts] ([onePromise], its "next"
    function and [nextContext]) together with the small part of the host
    runtime that the module talks to: the microtask queue, the
    [AbortController] heap and the user code that is handed to the module
    (getter functions, [onFulfilled]/[onRejected] callbacks and
    [onChangeIsPending]).

    User code is a finite command tree ([script]): it can return, throw,
    read [cx.signal] and call the "next" function again.  The module code
    is written as state-passing functions over [World].  The async function
    [next] is cut at its two [await]s: [next] runs it up to the first one and
    [resume] continues it when the awaited operation settles.  When and how
    a promise-like settles is the host's choice ([Resume]), so every
    interleaving of settlements, microtasks and further calls is covered. *)

From stdpp Require Import base option list strings.
From Stdlib Require Import ZArith Lia.

Set Default Proof Using "Type".
Set Warnings "-register-all".

(** ** JavaScript values that flow through the module *)

Inductive value : Type :=
| VUndefined
| VNull
| VBoolean (b : bool)
| VNumber (z : Z)
| VString (s : string)
| VPromiseLike (p : nat)          (* an object with a [then] method *)
| VAbortSignal (c : nat)          (* [controller.signal] of controller [c] *)
| VOnePromiseAbortError           (* [new OnePromiseAbortError()] *)
| VTypeError.                     (* raised by the host on a dangling handle *)

#[global] Instance value_eq_dec : EqDecision value.
Proof. solve_decision. Defined.

(** How a piece of synchronous user code ends. *)
Inductive completion : Type :=
| Normal (v : value)
| Abrupt (e : value).

(** How an awaited operation settles. *)
Inductive outcome : Type :=
| Fulfilled (v : value)
| Rejected (e : value).

(** ** User code

    [OnePromiseNextContext] objects are identified by the address of the
    [PromiseRef] they close over. *)

Inductive script : Type :=
| Return (v : value)
| Throw (e : value)
| GetSignal (cx : nat) (k : nat → script)
| CallNext (valueArg : jsvalue)
           (onFulfilled onRejected : option (value → bool → script))
           (k : script)
with jsvalue : Type :=
| Plain (v : value)
| Function (getter : nat → script).

Definition callback : Type := value → bool → script.

Scheme script_jsvalue_ind := Induction for script Sort Prop
  with jsvalue_script_ind := Induction for jsvalue Sort Prop.

Definition typeof_value (v : value) : string :=
  match v with
  | VUndefined => "undefined"
  | VBoolean _ => "boolean"
  | VNumber _ => "number"
  | VString _ => "string"
  | VNull | VPromiseLike _ | VAbortSignal _
  | VOnePromiseAbortError | VTypeError => "object"
  end.

Definition typeof (x : jsvalue) : string :=
  match x with
  | Plain v => typeof_value v
  | Function _ => "function"
  end.

(** ** The module's data *)

(** [type PromiseRef = { isCurrent: boolean; abortController: AbortController | null }] *)
Record PromiseRef : Type := mkPromiseRef {
  isCurrent : bool;
  abortController : option nat;
}.

(** The part of an [AbortController] the module relies on: whether its
    signal is aborted and with which reason.  Listeners of the signal belong
    to whoever holds it and are not modelled. *)
Record AbortController : Type := mkAbortController {
  aborted : bool;
  reason : option value;
}.

(** [controller.abort(reason)]: the first call wins. *)
Definition abort (why : value) (c : AbortController) : AbortController :=
  if aborted c then c else mkAbortController true (Some why).

Inductive microtask : Type :=
| MNotify (isPending : bool)             (* [() => onChangeIsPending?.(b)] *)
| MDeliver (call : nat) (o : outcome).   (* reaction on the promise returned by "next" *)

(** Where an invocation of the async function [next] stands. *)
Inductive status : Type :=
| Running
| AwaitPromise (promise : value)     (* suspended at [value = await promise] *)
| AwaitCallback (result : value)     (* suspended at [return await onX(...)] *)
| Settled (o : outcome).

Record Frame : Type := mkFrame {
  thisRef : nat;
  onFulfilled : option callback;
  onRejected : option callback;
  pc : status;
}.

Inductive event : Type :=
| EvIsPending (b : bool)                           (* onChangeIsPending(b) was invoked *)
| EvOnFulfilled (call : nat) (v : value) (cur : bool)
| EvOnRejected (call : nat) (e : value) (cur : bool)
| EvUncaught (e : value)                           (* reported by the host *)
| EvDelivered (call : nat) (o : outcome).          (* an awaiter of "next" resumed *)

Record World : Type := mkWorld {
  refs : list PromiseRef;                (* heap of [PromiseRef] objects *)
  controllers : list AbortController;    (* heap of [AbortController] objects *)
  current : option nat;                  (* [let current: PromiseRef | null] *)
  microtasks : list microtask;           (* host microtask queue, FIFO *)
  frames : list Frame;                   (* invocations of [next] *)
  trace : list event;                    (* what the user code has observed *)
}.

Definition init : World := mkWorld [] [] None [] [] [].

Definition set_refs (f : list PromiseRef → list PromiseRef) (w : World) : World :=
  mkWorld (f (refs w)) (controllers w) (current w) (microtasks w) (frames w) (trace w).
Definition set_controllers (f : list AbortController → list AbortController) (w : World) : World :=
  mkWorld (refs w) (f (controllers w)) (current w) (microtasks w) (frames w) (trace w).
Definition set_current (c : option nat) (w : World) : World :=
  mkWorld (refs w) (controllers w) c (microtasks w) (frames w) (trace w).
Definition queueMicrotask (m : microtask) (w : World) : World :=
  mkWorld (refs w) (controllers w) (current w) (microtasks w ++ [m]) (frames w) (trace w).
Definition set_microtasks (q : list microtask) (w : World) : World :=
  mkWorld (refs w) (controllers w) (current w) q (frames w) (trace w).
Definition set_frames (f : list Frame → list Frame) (w : World) : World :=
  mkWorld (refs w) (controllers w) (current w) (microtasks w) (f (frames w)) (trace w).
Definition log (e : event) (w : World) : World :=
  mkWorld (refs w) (controllers w) (current w) (microtasks w) (frames w) (trace w ++ [e]).

(** ** [nextContext(ref).signal] *)

Definition signal (ref : nat) (w : World) : option (World * nat) :=
  match refs w !! ref with
  | None => None
  | Some r =>
    match abortController r with
    | Some c => Some (w, c)
    | None =>
      let c := length (controllers w) in
      let ctl := mkAbortController false None in
      let ctl := if negb (isCurrent r) then abort VOnePromiseAbortError ctl else ctl in
      Some (set_refs <[ref := mkPromiseRef (isCurrent r) (Some c)]>
              (set_controllers (λ cs, cs ++ [ctl]) w), c)
    end
  end.

(** [ref.isCurrent], read through the heap.  A dangling address cannot be
    produced by the module; it reads as [false]. *)
Definition is_current (ref : nat) (w : World) : bool :=
  match refs w !! ref with
  | Some r => isCurrent r
  | None => false
  end.

(** ** The "next" function up to its first [await] (lines 151-167) *)

(** [const thisRef: PromiseRef = { isCurrent: true, abortController: null }] *)
Definition alloc (w : World) : World :=
  set_refs (λ rs, rs ++ [mkPromiseRef true None]) w.

(** [prev.isCurrent = false; prev.abortController?.abort(new OnePromiseAbortError())] *)
Definition supersede (prev : nat) (w : World) : World :=
  match refs w !! prev with
  | None => w
  | Some r =>
    let w := set_refs <[prev := mkPromiseRef false (abortController r)]> w in
    match abortController r with
    | Some c => set_controllers (alter (abort VOnePromiseAbortError) c) w
    | None => w
    end
  end.

(** Lines 156-163. *)
Definition bookkeeping (thisRef : nat) (w : World) : World :=
  let prev := current w in
  let w := set_current (Some thisRef) w in
  match prev with
  | Some prev => supersede prev w
  | None => queueMicrotask (MNotify true) w
  end.

(** A new invocation of [next], identified by its position in [frames]. *)
Definition push_frame (f : Frame) (w : World) : World * nat :=
  (set_frames (λ fs, fs ++ [f]) w, length (frames w)).

(** The body of the async function threw before any [await]: the promise
    it returns is rejected, and whoever awaits it is resumed later. *)
Definition throw_from_next (thisRef : nat) (onF onR : option callback)
    (err : value) (w : World) : World * nat :=
  let '(w, call) := push_frame (mkFrame thisRef onF onR (Settled (Rejected err))) w in
  (queueMicrotask (MDeliver call (Rejected err)) w, call).

Section next.
Variable invoke : script → World → World * completion.

Definition next_sync (valueArg : jsvalue) (onFulfilled onRejected : option callback)
    (w : World) : World * nat :=
  let thisRef := length (refs w) in
  let w := alloc w in
  let '(w, promise) :=
    match valueArg with
    | Function getter => invoke (getter thisRef) w   (* typeof valueArg === "function" *)
    | Plain v => (w, Normal v)
    end in
  match promise with
  | Abrupt err => throw_from_next thisRef onFulfilled onRejected err w
  | Normal promise =>
    let w := bookkeeping thisRef w in
    push_frame (mkFrame thisRef onFulfilled onRejected (AwaitPromise promise)) w
  end.
End next.

(** Synchronous execution of user code. *)
Fixpoint invoke (s : script) (w : World) {struct s} : World * completion :=
  match s with
  | Return v => (w, Normal v)
  | Throw e => (w, Abrupt e)
  | GetSignal cx k =>
    match signal cx w with
    | Some (w, c) => invoke (k c) w
    | None => (w, Abrupt VTypeError)
    end
  | CallNext valueArg onF onR k =>
    let '(w, _) := next_sync invoke valueArg onF onR w in invoke k w
  end.

Definition next : jsvalue → option callback → option callback → World → World * nat :=
  next_sync invoke.

(** ** The rest of [next]: after [await promise] (lines 167-183) *)

(** Which results an [await] of [awaited] can produce: a plain value comes
    back unchanged, a promise-like settles as its owner decides. *)
Definition settles (awaited : value) (o : outcome) : bool :=
  match awaited with
  | VPromiseLike _ => true
  | v => match o with
         | Fulfilled v' => bool_decide (v' = v)
         | Rejected _ => false
         end
  end.

Definition set_pc (call : nat) (s : status) (w : World) : World :=
  set_frames (alter (λ f, mkFrame (thisRef f) (onFulfilled f) (onRejected f) s) call) w.

(** The async function returns or throws: its promise settles. *)
Definition finish (call : nat) (o : outcome) (w : World) : World :=
  queueMicrotask (MDeliver call o) (set_pc call (Settled o) w).

(** [return await cb(arg, thisRef.isCurrent)], up to the [await]. *)
Definition call_back (call : nat) (ev : event) (cb : callback) (arg : value)
    (cur : bool) (w : World) : World :=
  let '(w, c) := invoke (cb arg cur) (log ev w) in
  match c with
  | Normal result => set_pc call (AwaitCallback result) w
  | Abrupt e => finish call (Rejected e) w
  end.

(** The [finally] block (lines 168-173). *)
Definition finally (thisRef : nat) (w : World) : World :=
  if is_current thisRef w
  then queueMicrotask (MNotify false) (set_current None w)
  else w.

Definition resume (call : nat) (o : outcome) (w : World) : option World :=
  match frames w !! call with
  | None => None
  | Some f =>
    match pc f with
    | AwaitPromise promise =>
      if settles promise o then
        let w := set_pc call Running w in
        let w := finally (thisRef f) w in
        Some match o with
             | Rejected err =>
               match onRejected f with
               | None => finish call (Rejected err) w
               | Some cb =>
                 let cur := is_current (thisRef f) w in
                 call_back call (EvOnRejected call err cur) cb err cur w
               end
             | Fulfilled value =>
               match onFulfilled f with
               | None => finish call (Fulfilled value) w
               | Some cb =>
                 let cur := is_current (thisRef f) w in
                 call_back call (EvOnFulfilled call value cur) cb value cur w
               end
             end
      else None
    | AwaitCallback result =>
      if settles result o then Some (finish call o w) else None
    | Running | Settled _ => None
    end
  end.

(** ** The host: turns of user code, microtasks, settlements *)

(** A synchronous piece of user code run by the host; what it throws is
    reported, not propagated. *)
Definition run_job (s : script) (w : World) : World :=
  let '(w, c) := invoke s w in
  match c with
  | Normal _ => w
  | Abrupt e => log (EvUncaught e) w
  end.

Section onePromise.
(** [onePromise({ onChangeIsPending })] *)
Variable onChangeIsPending : option (bool → script).

Definition run_microtask (m : microtask) (w : World) : World :=
  match m with
  | MNotify b =>
    match onChangeIsPending with
    | None => w
    | Some f => run_job (f b) (log (EvIsPending b) w)
    end
  | MDeliver call o => log (EvDelivered call o) w
  end.

Definition tick (w : World) : option World :=
  match microtasks w with
  | [] => None
  | m :: q =>
    Some (run_microtask m (set_microtasks q w))
  end.

Inductive action : Type :=
| Turn (s : script)                    (* user code runs, e.g. calls "next" *)
| Tick                                 (* the host runs the oldest microtask *)
| Resume (call : nat) (o : outcome).   (* an awaited operation has settled *)

Definition step (a : action) (w : World) : option World :=
  match a with
  | Turn s => Some (run_job s w)
  | Tick => tick w
  | Resume call o => resume call o w
  end.

Fixpoint run (acts : list action) (w : World) : option World :=
  match acts with
  | [] => Some w
  | a :: acts =>
    match step a w with
    | Some w => run acts w
    | None => None
    end
  end.
End onePromise.

(** What [onChangeIsPending] has been called with, in order. *)
Definition notified (tr : list event) : list bool :=
  omap (λ e, match e with EvIsPending b => Some b | _ => None end) tr.

(** The notifications still waiting in the microtask queue. *)
Definition queued (q : list microtask) : list bool :=
  omap (λ m, match m with MNotify b => Some b | _ => None end) q.

(** The flags handed to the completion callbacks of invocation [call]. *)
Definition flags_of (call : nat) (tr : list event) : list bool :=
  omap (λ e, match e with
             | EvOnFulfilled c _ cur | EvOnRejected c _ cur =>
               if decide (c = call) then Some cur else None
             | _ => None
             end) tr.

(** A call of "next" from top-level user code. *)
Definition call_next (valueArg : jsvalue) (onF onR : option callback) : script :=
  CallNext valueArg onF onR (Return VUndefined).


(** ** Invariants *)

(** A record that was allocated but is not yet owned by the tracker or by
    a suspended invocation: the [thisRef] of an invocation of [next] that
    is still running its getter. *)
Definition free (r : nat) (w : World) : Prop :=
  is_current r w = true ∧ current w ≠ Some r ∧ ∀ f, f ∈ frames w → thisRef f ≠ r.

Record Inv (w : World) : Prop := mkInv {
  inv_bound : ∀ f, f ∈ frames w → thisRef f < length (refs w);
  inv_nodup : NoDup (thisRef <$> frames w);
  inv_slot : ∀ r, current w = Some r →
    is_current r w = true ∧
    ∃ call f p, frames w !! call = Some f ∧ thisRef f = r ∧ pc f = AwaitPromise p;
  inv_awaiting : ∀ call f p,
    frames w !! call = Some f → pc f = AwaitPromise p →
    is_current (thisRef f) w = true → current w = Some (thisRef f);
}.



Definition is_pending (w : World) : bool :=
  match current w with Some _ => true | None => false end.


(** The synchronous bookkeeping of a call that reached its [await]. *)
Definition install (r : nat) (promise : value) (onF onR : option callback)
    (w : World) : World :=
  (push_frame (mkFrame r onF onR (AwaitPromise promise)) (bookkeeping r w)).1.

(** ** Derived notions and the scenarios used below *)

(** An [onChangeIsPending] that only records what it is called with (the
    record is the [EvIsPending] entry of the trace). *)
Definition recorder : bool → script := λ _, Return VUndefined.


(** The same, with [a] settling (superseded) before [b] does. *)
Definition burst_a_first (pa pb : nat) (oa ob : outcome) : list action :=
  [ Turn (call_next (Plain (VPromiseLike pa)) None None);
    Turn (call_next (Plain (VPromiseLike pb)) None None);
    Resume 0 oa; Resume 1 ob; Tick; Tick; Tick; Tick ].

(** [ref.abortController], read through the heap. *)
Definition controller_of (ref : nat) (w : World) : option nat :=
  refs w !! ref ≫= abortController.

(** Whether the getter handed to "next" throws before returning. *)
Definition throws_sync (valueArg : jsvalue) (w : World) : bool :=
  match valueArg with
  | Plain _ => false
  | Function getter =>
    match (invoke (getter (length (refs w))) (alloc w)).2 with
    | Abrupt _ => true
    | Normal _ => false
    end
  end.

(** The world in which lines 156-163 run: after the record was created
    and the getter, if any, has returned. *)
Definition after_getter (valueArg : jsvalue) (w : World) : World :=
  match valueArg with
  | Plain _ => alloc w
  | Function getter => (invoke (getter (length (refs w))) (alloc w)).1
  end.

(** The callback a settling invocation runs, if any, and the flag it gets. *)
Definition completion_event (call : nat) (f : Frame) (o : outcome) (cur : bool)
    : list event :=
  match o with
  | Fulfilled v =>
    match onFulfilled f with Some _ => [EvOnFulfilled call v cur] | None => [] end
  | Rejected e =>
    match onRejected f with Some _ => [EvOnRejected call e cur] | None => [] end
  end.

Definition throwing_getter : nat → script := λ _, Throw (VString "reason").
Definition ignore : callback := λ _ _, Return VUndefined.

(** next(a, onFulfilled); next(b, onFulfilled, onRejected) with a getter
    [b] that throws; then [a] is fulfilled. *)
Definition overtaken_by_throwing_getter : list action :=
  [ Turn (call_next (Plain (VPromiseLike 0)) (Some ignore) None);
    Turn (call_next (Function throwing_getter) (Some ignore) (Some ignore));
    Resume 0 (Fulfilled VNull) ].

(** The world after a first call next(p0, onFulfilled) from [init]. *)
Definition one_waiting : World :=
  (next (Plain (VPromiseLike 0)) (Some ignore) None init).1.

(** next(getter) settles while current, then next(p1) is called; the
    getter's context object is still around. *)
Definition settle_then_call_again : list action :=
  [ Turn (call_next (Function (λ _, Return (VPromiseLike 0))) None None);
    Resume 0 (Fulfilled VNull);
    Turn (call_next (Plain (VPromiseLike 1)) None None) ].

(** The callback that handles outcome [o], with its first argument. *)
Definition handler (f : Frame) (o : outcome) : option callback * value :=
  match o with
  | Fulfilled v => (onFulfilled f, v)
  | Rejected e => (onRejected f, e)
  end.

(** The world in which a completion callback of [call] starts to run: the
    invocation was woken, its [finally] block has run and the call is
    recorded. *)
Definition callback_world (call : nat) (f : Frame) (o : outcome) (w : World) : World :=
  let w1 := finally (thisRef f) (set_pc call Running w) in
  match completion_event call f o (is_current (thisRef f) w) with
  | ev :: _ => log ev w1
  | [] => w1
  end.

(** The repository's test: [next(null, () => { throw "things" }, onRejected)]. *)
Definition throwing_callback : callback := λ _ _, Throw (VString "things").

(** The repository's test: a throwing [onChangeIsPending] and
    [next("value", null, onRejected)]. *)
Definition throwing_notifier : bool → script := λ _, Throw (VString "reason").

(** next(getter) is superseded by next(null) before the getter's async
    body gets to read [cx.signal]. *)
Definition superseded_before_signal : World :=
  (next (Plain VNull) None None
     (next (Function (λ _, Return (VPromiseLike 0))) None None init).1).1.

(** [onFulfilled] calls "next" again. *)
Definition reentrant : callback :=
  λ _ _, CallNext (Plain VNull) None None (Return VUndefined).

(** ** Further notions used for the module as a whole *)

(** The state of a controller created for a record, as [nextContext] and
    line 160 leave it. *)
Definition ctl_state (cur : bool) : AbortController :=
  if cur then mkAbortController false None
  else mkAbortController true (Some VOnePromiseAbortError).

Record Ctl (w : World) : Prop := mkCtl {
  ctl_state_of : ∀ r c, controller_of r w = Some c →
    controllers w !! c = Some (ctl_state (is_current r w));
  ctl_inj : ∀ r r' c,
    controller_of r w = Some c → controller_of r' w = Some c → r = r';
}.

(** The invocation [call] has not begun or is still waiting at line 167. *)
Definition unsettled (call : nat) (w : World) : Prop :=
  match frames w !! call with
  | None => True
  | Some f => match pc f with AwaitPromise _ => True | _ => False end
  end.

Record Once (w : World) : Prop := mkOnce {
  once_le : ∀ call, length (flags_of call (trace w)) ≤ 1;
  once_fresh : ∀ call, unsettled call w → flags_of call (trace w) = [];
}.

(** User code that never reads [cx.signal], callbacks it passes on
    included. *)
Fixpoint no_signal (s : script) : Prop :=
  match s with
  | Return _ | Throw _ => True
  | GetSignal _ _ => False
  | CallNext valueArg onF onR k =>
    match valueArg with
    | Plain _ => True
    | Function getter => ∀ cx, no_signal (getter cx)
    end ∧
    match onF with Some cb => ∀ v b, no_signal (cb v b) | None => True end ∧
    match onR with Some cb => ∀ v b, no_signal (cb v b) | None => True end ∧
    no_signal k
  end.

Definition no_signal_callback (cb : option callback) : Prop :=
  match cb with Some cb => ∀ v b, no_signal (cb v b) | None => True end.

Definition no_signal_action (a : action) : Prop :=
  match a with
  | Turn s => no_signal s
  | Tick | Resume _ _ => True
  end.

Record NoSignal (w : World) : Prop := mkNoSignal {
  no_controllers : controllers w = [];
  no_controller_of : ∀ r, controller_of r w = None;
  no_signal_frames : ∀ f, f ∈ frames w →
    no_signal_callback (onFulfilled f) ∧ no_signal_callback (onRejected f);
}.

(** A value that is not promise-like: [await] gives it back. *)
Definition is_plain (v : value) : bool :=
  match v with VPromiseLike _ => false | _ => true end.

(** A getter that itself calls next(v, onF, onR) and then returns [p]. *)
Definition getter_calling_next (v : value) (onF onR : option callback) (p : value)
    : nat → script :=
  λ _, CallNext (Plain v) onF onR (Return p).


(** From [w] to [w'] the slot was not emptied, and [true] was queued
    exactly if it went from empty to occupied. *)
Definition pending_step (w w' : World) : Prop :=
  (is_pending w = true → is_pending w' = true) ∧
  queued (microtasks w') =
    queued (microtasks w) ++
    (if is_pending w then [] else if is_pending w' then [true] else []).

(** [first_call s w a onF onR k w']: running [s] from [w], the first call
    of "next" is next(a, onF, onR), made in world [w'] and followed by [k];
    before it the code only reads signals. *)
Inductive first_call :
  script → World → jsvalue → option callback → option callback → script → World → Prop :=
| first_call_here a onF onR k w :
    first_call (CallNext a onF onR k) w a onF onR k w
| first_call_signal cx kk w w1 c a onF onR k w' :
    signal cx w = Some (w1, c) →
    first_call (kk c) w1 a onF onR k w' →
    first_call (GetSignal cx kk) w a onF onR k w'.


(** The first call's getter itself calls next(null, onFulfilled) and then
    returns p0; both operations are fulfilled. *)
Definition call_inside_the_getter : list action :=
  [ Turn (call_next (Function (getter_calling_next VNull (Some ignore) None (VPromiseLike 0)))
            (Some ignore) None);
    Resume 0 (Fulfilled VNull);
    Resume 1 (Fulfilled VNull) ].

(** [onFulfilled] calls "next" with a getter that throws. *)
Definition reentrant_throwing : callback :=
  λ _ _, CallNext (Function throwing_getter) None None (Return VUndefined).

(** [onFulfilled] calls "next" twice. *)
Definition reentrant_twice : callback :=
  λ _ _, CallNext (Plain VNull) None None
           (CallNext (Plain VNull) None None (Return VUndefined)).

(** A getter that reads [cx.signal] and returns the promise [p]. *)
Definition getter_with_signal (p : nat) : nat → script :=
  λ cx, GetSignal cx (λ _, Return (VPromiseLike p)).

(** next(getter reading its signal), then next(null). *)
Definition signal_then_superseded : list action :=
  [ Turn (call_next (Function (getter_with_signal 0)) None None);
    Turn (call_next (Plain VNull) None None) ].

(** Two calls whose getters both read their signal. *)
Definition two_signals : list action :=
  [ Turn (call_next (Function (getter_with_signal 0)) None None);
    Turn (call_next (Function (getter_with_signal 1)) None None) ].

(** The world [acts] lead to from [init] ([init] itself if they cannot run). *)
Definition world_after (cb : option (bool → script)) (acts : list action) : World :=
  default init (run cb acts init).

(** ** Basic facts about the heap operations *)

Lemma is_current_lt r w : is_current r w = true → r < length (refs w).
Proof.
  unfold is_current. destruct (refs w !! r) eqn:E; [|done].
  intros _. by eapply lookup_lt_Some.
Qed.

Lemma is_current_alloc r w :
  r < length (refs w) → is_current r (alloc w) = is_current r w.
Proof. intros H. unfold is_current, alloc. simpl. by rewrite lookup_app_l. Qed.

Lemma is_current_alloc_new w : is_current (length (refs w)) (alloc w) = true.
Proof.
  unfold is_current, alloc. simpl.
  rewrite lookup_app_r; [|lia]. by rewrite Nat.sub_diag.
Qed.

Lemma is_current_supersede r p w :
  is_current r (supersede p w) = is_current r w && negb (bool_decide (r = p)).
Proof.
  unfold supersede, is_current.
  destruct (refs w !! p) as [x|] eqn:E.
  - assert (refs (match abortController x with
        | Some c => set_controllers (alter (abort VOnePromiseAbortError) c)
                      (set_refs <[p := mkPromiseRef false (abortController x)]> w)
        | None => set_refs <[p := mkPromiseRef false (abortController x)]> w
        end) = <[p := mkPromiseRef false (abortController x)]> (refs w)) as ->
      by (by destruct (abortController x)).
    case_bool_decide as Hrp.
    + subst r. rewrite list_lookup_insert_eq; [|by eapply lookup_lt_Some].
      simpl. by rewrite andb_false_r.
    + rewrite list_lookup_insert_ne; [|done]. by rewrite andb_true_r.
  - case_bool_decide as Hrp; [subst r; by rewrite E|]. by rewrite andb_true_r.
Qed.

Lemma supersede_fields p w :
  current (supersede p w) = current w ∧ frames (supersede p w) = frames w ∧
  microtasks (supersede p w) = microtasks w ∧ trace (supersede p w) = trace w ∧
  length (refs (supersede p w)) = length (refs w).
Proof.
  unfold supersede. destruct (refs w !! p) as [x|]; [|done].
  destruct (abortController x); simpl; by rewrite length_insert.
Qed.

Lemma signal_fields cx w w' c :
  signal cx w = Some (w', c) →
  current w' = current w ∧ frames w' = frames w ∧
  microtasks w' = microtasks w ∧ trace w' = trace w ∧
  length (refs w') = length (refs w) ∧
  ∀ r, is_current r w' = is_current r w.
Proof.
  unfold signal. destruct (refs w !! cx) as [x|] eqn:E; [|done].
  destruct (abortController x) eqn:Ea.
  - intros [= <- <-]. done.
  - intros [= <- <-]. simpl. rewrite length_insert. repeat split; try done.
    intros r. unfold is_current. simpl.
    destruct (decide (r = cx)) as [->|Hne].
    + rewrite list_lookup_insert_eq; [|by eapply lookup_lt_Some]. by rewrite E.
    + by rewrite list_lookup_insert_ne.
Qed.

Lemma bookkeeping_fields r w :
  current (bookkeeping r w) = Some r ∧ frames (bookkeeping r w) = frames w ∧
  trace (bookkeeping r w) = trace w ∧
  length (refs (bookkeeping r w)) = length (refs w) ∧
  microtasks (bookkeeping r w) =
    microtasks w ++ (if is_pending w then [] else [MNotify true]) ∧
  ∀ r', is_current r' (bookkeeping r w) =
        is_current r' w && negb (bool_decide (current w = Some r')).
Proof.
  unfold bookkeeping, is_pending. destruct (current w) as [p|] eqn:E.
  - destruct (supersede_fields p (set_current (Some r) w)) as (-> & -> & -> & -> & ->).
    simpl. rewrite app_nil_r. repeat split; try done.
    intros r'. rewrite is_current_supersede.
    f_equal. f_equal. apply bool_decide_ext. naive_solver.
  - simpl. repeat split; try done.
    intros r'. unfold is_current. simpl. by rewrite andb_true_r.
Qed.

(** [Inv] and [free] only look at the frames, the slot and the
    [isCurrent] flags. *)
Lemma Inv_ext w w' :
  frames w' = frames w → current w' = current w →
  length (refs w') = length (refs w) →
  (∀ r, is_current r w' = is_current r w) →
  Inv w → Inv w'.
Proof.
  intros Hf Hc Hl Hi [H1 H2 H3 H4].
  split; rewrite ?Hf, ?Hc, ?Hl; try done.
  - intros r Hr. rewrite Hi. by apply H3.
  - intros call f p. rewrite Hi. apply H4.
Qed.

Lemma free_ext r w w' :
  frames w' = frames w → current w' = current w →
  is_current r w' = is_current r w →
  free r w → free r w'.
Proof. intros Hf Hc Hi (?&?&?). unfold free. by rewrite Hf, Hc, Hi. Qed.

Lemma alloc_Inv w : Inv w → Inv (alloc w).
Proof.
  intros [H1 H2 H3 H4]. split; simpl; try done.
  - intros f Hf. rewrite length_app. specialize (H1 f Hf). simpl. lia.
  - intros r Hr. destruct (H3 r Hr) as [Hc Hex]. split; [|done].
    rewrite is_current_alloc; [done|]. by apply is_current_lt.
  - intros call f p Hf Hp. rewrite is_current_alloc; [by eapply H4|].
    apply H1. by eapply list_elem_of_lookup_2.
Qed.

Lemma alloc_free r w : free r w → free r (alloc w).
Proof.
  intros (Hc&?&?). split; [|done].
  rewrite is_current_alloc; [done|]. by apply is_current_lt.
Qed.

Lemma alloc_free_new w : Inv w → free (length (refs w)) (alloc w).
Proof.
  intros [H1 H2 H3 H4]. split; [apply is_current_alloc_new|]. simpl. split.
  - intros Hc. destruct (H3 _ Hc) as [Hlt _]. apply is_current_lt in Hlt. lia.
  - intros f Hf Heq. specialize (H1 f Hf). lia.
Qed.

Lemma signal_Inv cx w w' c : signal cx w = Some (w', c) → Inv w → Inv w'.
Proof.
  intros Hs. destruct (signal_fields _ _ _ _ Hs) as (?&?&?&?&?&?).
  by apply Inv_ext.
Qed.

Lemma signal_free cx w w' c r : signal cx w = Some (w', c) → free r w → free r w'.
Proof.
  intros Hs. destruct (signal_fields _ _ _ _ Hs) as (?&?&?&?&?&?).
  by apply free_ext.
Qed.

Lemma install_fields r p onF onR w :
  current (install r p onF onR w) = Some r ∧
  frames (install r p onF onR w) = frames w ++ [mkFrame r onF onR (AwaitPromise p)] ∧
  trace (install r p onF onR w) = trace w ∧
  length (refs (install r p onF onR w)) = length (refs w) ∧
  microtasks (install r p onF onR w) =
    microtasks w ++ (if is_pending w then [] else [MNotify true]) ∧
  ∀ r', is_current r' (install r p onF onR w) =
        is_current r' w && negb (bool_decide (current w = Some r')).
Proof.
  destruct (bookkeeping_fields r w) as (Hc & Hf & Ht & Hl & Hm & Hi).
  unfold install. simpl. rewrite Hf. repeat split; done.
Qed.

Lemma install_Inv r p onF onR w : Inv w → free r w → Inv (install r p onF onR w).
Proof.
  intros [H1 H2 H3 H4] (Hr & Hslot & Hfr).
  destruct (install_fields r p onF onR w) as (Hc & Hf & _ & Hl & _ & Hi).
  split; rewrite ?Hc, ?Hf, ?Hl.
  - intros f [Hf'| ->%list_elem_of_singleton]%elem_of_app; [by apply H1|].
    simpl. by apply is_current_lt.
  - rewrite fmap_app. apply NoDup_app. split; [done|]. split.
    + intros x Hx ->%list_elem_of_singleton.
      apply list_elem_of_fmap in Hx as (f & Heq & Hin). by eapply Hfr.
    + apply NoDup_singleton.
  - intros ? [= <-]. split.
    + rewrite Hi, Hr. simpl. by rewrite bool_decide_eq_false_2.
    + exists (length (frames w)), (mkFrame r onF onR (AwaitPromise p)), p.
      split; [|done]. rewrite lookup_app_r; [|lia]. by rewrite Nat.sub_diag.
  - intros call f q Hlk Hp Hcur.
    rewrite Hi in Hcur. apply andb_true_iff in Hcur as [Hcur Hne].
    apply negb_true_iff, bool_decide_eq_false in Hne.
    apply lookup_app_Some in Hlk as [Hlk | [_ Hlk]].
    + exfalso. apply Hne. by eapply H4.
    + apply list_lookup_singleton_Some in Hlk as [_ <-]. done.
Qed.

Lemma install_free r r' p onF onR w :
  free r' w → r ≠ r' → free r' (install r p onF onR w).
Proof.
  intros (Hr & Hslot & Hfr) Hne.
  destruct (install_fields r p onF onR w) as (Hc & Hf & _ & Hl & _ & Hi).
  unfold free. rewrite Hc, Hf, Hi. split; [|split].
  - rewrite Hr. simpl. by rewrite bool_decide_eq_false_2.
  - congruence.
  - intros f [Hf'| ->%list_elem_of_singleton]%elem_of_app; [by apply Hfr|done].
Qed.

Lemma throw_Inv r e onF onR w :
  Inv w → free r w → Inv (throw_from_next r onF onR e w).1.
Proof.
  intros [H1 H2 H3 H4] (Hr & Hslot & Hfr).
  unfold throw_from_next. simpl. split; simpl.
  - intros f [Hf'| ->%list_elem_of_singleton]%elem_of_app; [by apply H1|].
    simpl. by apply is_current_lt.
  - rewrite fmap_app. apply NoDup_app. split; [done|]. split.
    + intros x Hx ->%list_elem_of_singleton.
      apply list_elem_of_fmap in Hx as (f & Heq & Hin). by eapply Hfr.
    + apply NoDup_singleton.
  - intros r0 Hr0. destruct (H3 r0 Hr0) as [? (call & f & p & Hlk & ? & ?)].
    split; [done|]. exists call, f, p. split; [|done]. by apply lookup_app_l_Some.
  - intros call f q Hlk Hp Hcur.
    apply lookup_app_Some in Hlk as [Hlk | [_ Hlk]]; [by eapply H4|].
    apply list_lookup_singleton_Some in Hlk as [_ <-]. done.
Qed.

Lemma throw_free r r' e onF onR w :
  free r' w → r ≠ r' → free r' (throw_from_next r onF onR e w).1.
Proof.
  intros (Hr & Hslot & Hfr) Hne. unfold throw_from_next, free. simpl.
  split; [done|]. split; [done|].
  intros f [Hf'| ->%list_elem_of_singleton]%elem_of_app; [by apply Hfr|done].
Qed.

(** ** Unfolding "next" *)

Lemma next_Plain v onF onR w :
  next (Plain v) onF onR w =
  push_frame (mkFrame (length (refs w)) onF onR (AwaitPromise v))
    (bookkeeping (length (refs w)) (alloc w)).
Proof. reflexivity. Qed.

Lemma next_Function getter onF onR w :
  next (Function getter) onF onR w =
  let thisRef := length (refs w) in
  match invoke (getter thisRef) (alloc w) with
  | (w', Normal promise) =>
    push_frame (mkFrame thisRef onF onR (AwaitPromise promise)) (bookkeeping thisRef w')
  | (w', Abrupt err) => throw_from_next thisRef onF onR err w'
  end.
Proof.
  unfold next, next_sync. simpl.
  destruct (invoke (getter (length (refs w))) (alloc w)) as [w' [p|e]]; done.
Qed.

Lemma invoke_CallNext valueArg onF onR k w :
  invoke (CallNext valueArg onF onR k) w = invoke k (next valueArg onF onR w).1.
Proof.
  simpl. fold (next valueArg onF onR w).
  by destruct (next valueArg onF onR w).
Qed.

Lemma invoke_GetSignal cx k w :
  invoke (GetSignal cx k) w =
  match signal cx w with
  | Some (w', c) => invoke (k c) w'
  | None => (w, Abrupt VTypeError)
  end.
Proof. simpl. destruct (signal cx w) as [[??]|]; done. Qed.

(** ** User code preserves the invariant *)

Lemma invoke_Inv_free s :
  ∀ w, Inv w → Inv (invoke s w).1 ∧ ∀ r, free r w → free r (invoke s w).1.
Proof.
  induction s using script_jsvalue_ind with
    (P0 := λ a, ∀ onF onR w, Inv w →
       Inv (next a onF onR w).1 ∧ ∀ r, free r w → free r (next a onF onR w).1).
  - done.
  - done.
  - intros w HI. rewrite invoke_GetSignal.
    destruct (signal cx w) as [[w' c]|] eqn:E; [|done].
    destruct (H c w' (signal_Inv _ _ _ _ E HI)) as [H1 H2].
    split; [done|]. intros r Hr. apply H2. by eapply signal_free.
  - intros w HI. rewrite invoke_CallNext.
    destruct (IHs onFulfilled0 onRejected0 w HI) as [H1 H2].
    destruct (IHs0 _ H1) as [H3 H4]. split; [done|]. intros r Hr. by apply H4, H2.
  - intros onF onR w HI. rewrite next_Plain.
    pose proof (alloc_free_new w HI) as Hnew. pose proof (alloc_Inv w HI) as HI'.
    split; [by apply install_Inv|].
    intros r Hr. apply install_free; [by apply alloc_free|].
    destruct Hr as [Hr%is_current_lt _]. lia.
  - intros onF onR w HI. rewrite next_Function. simpl.
    pose proof (alloc_free_new w HI) as Hnew. pose proof (alloc_Inv w HI) as HI'.
    destruct (H (length (refs w)) _ HI') as [H1 H2].
    destruct (invoke (getter (length (refs w))) (alloc w)) as [w' [p|e]]; simpl in *.
    + split; [apply install_Inv; auto|].
      intros r Hr. apply install_free; [by apply H2, alloc_free|].
      destruct Hr as [Hr%is_current_lt _]. lia.
    + split; [apply throw_Inv; auto|].
      intros r Hr. apply throw_free; [by apply H2, alloc_free|].
      destruct Hr as [Hr%is_current_lt _]. lia.
Qed.

Lemma invoke_Inv s w : Inv w → Inv (invoke s w).1.
Proof. intros. by apply invoke_Inv_free. Qed.

Lemma next_Inv a onF onR w : Inv w → Inv (next a onF onR w).1.
Proof.
  intros HI. pose proof (invoke_Inv (call_next a onF onR) w HI) as H.
  unfold call_next in H. by rewrite invoke_CallNext in H.
Qed.

(** A relation that holds across every primitive operation of the module
    holds across any piece of user code. *)
Section invoke_rel.
Variable Q : World → World → Prop.
Hypothesis Q_refl : ∀ w, Q w w.
Hypothesis Q_trans : ∀ w1 w2 w3, Q w1 w2 → Q w2 w3 → Q w1 w3.
Hypothesis Q_alloc : ∀ w, Inv w → Q w (alloc w).
Hypothesis Q_signal : ∀ cx w w' c, Inv w → signal cx w = Some (w', c) → Q w w'.
Hypothesis Q_install : ∀ r p onF onR w,
  Inv w → free r w → Q w (install r p onF onR w).
Hypothesis Q_throw : ∀ r e onF onR w,
  Inv w → free r w → Q w (throw_from_next r onF onR e w).1.

Lemma invoke_rel s : ∀ w, Inv w → Q w (invoke s w).1.
Proof using All.
  induction s using script_jsvalue_ind with
    (P0 := λ a, ∀ onF onR w, Inv w → Q w (next a onF onR w).1).
  - done.
  - done.
  - intros w HI. rewrite invoke_GetSignal.
    destruct (signal cx w) as [[w' c]|] eqn:E; [|done].
    eapply Q_trans; [by eapply Q_signal|]. apply H. by eapply signal_Inv.
  - intros w HI. rewrite invoke_CallNext.
    eapply Q_trans; [by apply IHs|]. apply IHs0. by apply next_Inv.
  - intros onF onR w HI. rewrite next_Plain.
    eapply Q_trans; [by apply Q_alloc|].
    apply Q_install; [by apply alloc_Inv|by apply alloc_free_new].
  - intros onF onR w HI. rewrite next_Function. simpl.
    pose proof (alloc_free_new w HI) as Hnew. pose proof (alloc_Inv w HI) as HI'.
    destruct (invoke_Inv_free (getter (length (refs w))) _ HI') as [H1 H2].
    specialize (H (length (refs w)) _ HI').
    destruct (invoke (getter (length (refs w))) (alloc w)) as [w' [p|e]]; simpl in *.
    + eapply Q_trans; [by apply Q_alloc|]. eapply Q_trans; [done|].
      apply Q_install; auto.
    + eapply Q_trans; [by apply Q_alloc|]. eapply Q_trans; [done|].
      apply Q_throw; auto.
Qed.

Lemma next_rel a onF onR w : Inv w → Q w (next a onF onR w).1.
Proof using All.
  intros HI. pose proof (invoke_rel (call_next a onF onR) w HI) as H.
  unfold call_next in H. by rewrite invoke_CallNext in H.
Qed.
End invoke_rel.

(** ** The continuation of "next" preserves the invariant *)

Lemma set_pc_thisRefs call s w :
  thisRef <$> frames (set_pc call s w) = thisRef <$> frames w.
Proof.
  simpl. rewrite (list_fmap_alter thisRef _ id).
  - by apply list_alter_id.
  - by apply Forall_true.
Qed.

Lemma set_pc_lookup call s w i :
  frames (set_pc call s w) !! i =
  if decide (call = i)
  then (λ f, mkFrame (thisRef f) (onFulfilled f) (onRejected f) s) <$> frames w !! call
  else frames w !! i.
Proof. apply list_lookup_alter. Qed.

Lemma set_pc_bound call s w :
  (∀ f, f ∈ frames w → thisRef f < length (refs w)) →
  ∀ f, f ∈ frames (set_pc call s w) → thisRef f < length (refs (set_pc call s w)).
Proof.
  intros H f Hf.
  assert (thisRef f ∈ thisRef <$> frames (set_pc call s w)) as Hin
    by (apply list_elem_of_fmap; eauto).
  rewrite set_pc_thisRefs in Hin.
  apply list_elem_of_fmap in Hin as (f' & -> & Hf'). by apply H.
Qed.

Lemma set_pc_Inv call f s w :
  Inv w → frames w !! call = Some f →
  (∀ p, pc f ≠ AwaitPromise p) → (∀ p, s ≠ AwaitPromise p) →
  Inv (set_pc call s w).
Proof.
  intros [H1 H2 H3 H4] Hf Hpc Hs. split.
  - by apply set_pc_bound.
  - by rewrite set_pc_thisRefs.
  - intros r Hr. destruct (H3 r Hr) as [Hc (call0 & f0 & p & Hlk & Hth & Hp)].
    split; [done|]. exists call0, f0, p. split; [|done].
    rewrite set_pc_lookup. case_decide as Hd; [|done].
    subst call0. rewrite Hf in Hlk. injection Hlk as <-. by destruct (Hpc p).
  - intros call0 f0 p. rewrite set_pc_lookup. case_decide as Hd.
    + rewrite Hf. simpl. intros [= <-]. simpl. intros ->. by destruct (Hs p).
    + apply H4.
Qed.

Lemma wake_Inv call f p w :
  Inv w → frames w !! call = Some f → pc f = AwaitPromise p →
  Inv (finally (thisRef f) (set_pc call Running w)).
Proof.
  intros [H1 H2 H3 H4] Hf Hpc. unfold finally.
  change (is_current (thisRef f) (set_pc call Running w))
    with (is_current (thisRef f) w).
  destruct (is_current (thisRef f) w) eqn:Hcur; split.
  - apply (set_pc_bound call Running w H1).
  - change (NoDup (thisRef <$> frames (set_pc call Running w))).
    by rewrite set_pc_thisRefs.
  - done.
  - intros call0 f0 q.
    change (frames (set_pc call Running w) !! call0 = Some f0 →
            pc f0 = AwaitPromise q → is_current (thisRef f0) w = true →
            None = Some (thisRef f0)).
    rewrite set_pc_lookup. case_decide as Hd.
    + rewrite Hf. simpl. by intros [= <-].
    + intros Hlk Hp Hc. exfalso. apply Hd.
      pose proof (H4 _ _ _ Hf Hpc Hcur) as E1.
      pose proof (H4 _ _ _ Hlk Hp Hc) as E2.
      eapply (NoDup_lookup _ call call0 (thisRef f) H2);
        rewrite list_lookup_fmap.
      * by rewrite Hf.
      * rewrite Hlk. simpl. congruence.
  - by apply set_pc_bound.
  - by rewrite set_pc_thisRefs.
  - intros r Hr. destruct (H3 r Hr) as [Hc (call0 & f0 & q & Hlk & Hth & Hp)].
    split; [done|]. exists call0, f0, q. split; [|done].
    rewrite set_pc_lookup. case_decide as Hd; [|done].
    subst call0. rewrite Hf in Hlk. injection Hlk as <-. congruence.
  - intros call0 f0 q. rewrite set_pc_lookup. case_decide as Hd.
    + rewrite Hf. simpl. by intros [= <-].
    + apply H4.
Qed.

Lemma log_Inv e w : Inv w → Inv (log e w).
Proof. by apply Inv_ext. Qed.

Lemma queueMicrotask_Inv m w : Inv w → Inv (queueMicrotask m w).
Proof. by apply Inv_ext. Qed.

Lemma set_microtasks_Inv q w : Inv w → Inv (set_microtasks q w).
Proof. by apply Inv_ext. Qed.

(** User code only ever appends to the list of invocations. *)
Lemma invoke_frames s w : Inv w → frames w `prefix_of` frames (invoke s w).1.
Proof.
  revert w. apply (invoke_rel (λ w w', frames w `prefix_of` frames w')).
  - done.
  - intros ??? ??. by etrans.
  - done.
  - intros cx w w' c _ Hs. by destruct (signal_fields _ _ _ _ Hs) as (_ & -> & _).
  - intros r p onF onR w _ _.
    destruct (install_fields r p onF onR w) as (_ & -> & _). by apply prefix_app_r.
  - intros r e onF onR w _ _. simpl. by apply prefix_app_r.
Qed.

Lemma init_Inv : Inv init.
Proof.
  split; simpl.
  - intros f Hf. by apply elem_of_nil in Hf.
  - apply NoDup_nil_2.
  - done.
  - intros call f p Hlk. done.
Qed.

(** A relation that holds across the primitive operations of the module
    and of the host holds across every step of every execution. *)
Section step_rel.
Variable onChangeIsPending : option (bool → script).
Variable Q : World → World → Prop.
Hypothesis Q_refl : ∀ w, Q w w.
Hypothesis Q_trans : ∀ w1 w2 w3, Q w1 w2 → Q w2 w3 → Q w1 w3.
Hypothesis Q_alloc : ∀ w, Inv w → Q w (alloc w).
Hypothesis Q_signal : ∀ cx w w' c, Inv w → signal cx w = Some (w', c) → Q w w'.
Hypothesis Q_install : ∀ r p onF onR w,
  Inv w → free r w → Q w (install r p onF onR w).
Hypothesis Q_throw : ∀ r e onF onR w,
  Inv w → free r w → Q w (throw_from_next r onF onR e w).1.
Hypothesis Q_log : ∀ e w, (∀ b, e ≠ EvIsPending b) → Q w (log e w).
Hypothesis Q_deliver : ∀ call o w, Q w (queueMicrotask (MDeliver call o) w).
Hypothesis Q_set_pc : ∀ call s w, Q w (set_pc call s w).
Hypothesis Q_wake : ∀ call f p w,
  Inv w → frames w !! call = Some f → pc f = AwaitPromise p →
  Q w (finally (thisRef f) (set_pc call Running w)).
Hypothesis Q_pop_deliver : ∀ call o q w,
  microtasks w = MDeliver call o :: q → Q w (set_microtasks q w).
Hypothesis Q_pop_notify : ∀ b q w,
  microtasks w = MNotify b :: q →
  Q w (match onChangeIsPending with
       | Some _ => log (EvIsPending b) (set_microtasks q w)
       | None => set_microtasks q w
       end).

Lemma run_job_rel s w : Inv w → Inv (run_job s w) ∧ Q w (run_job s w).
Proof using Q_refl Q_trans Q_alloc Q_signal Q_install Q_throw Q_log.
  intros HI. unfold run_job.
  pose proof (invoke_Inv s w HI) as H1.
  pose proof (invoke_rel Q Q_refl Q_trans Q_alloc Q_signal Q_install Q_throw s w HI) as H2.
  destruct (invoke s w) as [w' [v|e]]; simpl in *; [done|].
  split; [by apply log_Inv|]. eapply Q_trans; [done|]. by apply Q_log.
Qed.

Lemma finish_rel call f o w :
  Inv w → frames w !! call = Some f → (∀ p, pc f ≠ AwaitPromise p) →
  Inv (finish call o w) ∧ Q w (finish call o w).
Proof using Q_refl Q_trans Q_alloc Q_signal Q_install Q_throw Q_log Q_deliver Q_set_pc Q_wake.
  intros HI Hf Hpc. unfold finish. split.
  - apply queueMicrotask_Inv. by eapply set_pc_Inv.
  - eapply Q_trans; [apply Q_set_pc|apply Q_deliver].
Qed.

Lemma call_back_rel call f ev cb arg cur w :
  Inv w → frames w !! call = Some f → pc f = Running →
  (∀ b, ev ≠ EvIsPending b) →
  Inv (call_back call ev cb arg cur w) ∧ Q w (call_back call ev cb arg cur w).
Proof using Q_refl Q_trans Q_alloc Q_signal Q_install Q_throw Q_log Q_deliver Q_set_pc Q_wake.
  intros HI Hf Hpc Hev. unfold call_back.
  pose proof (log_Inv ev w HI) as HI1.
  pose proof (invoke_Inv (cb arg cur) _ HI1) as HI2.
  pose proof (invoke_rel Q Q_refl Q_trans Q_alloc Q_signal Q_install Q_throw
                (cb arg cur) _ HI1) as HQ.
  pose proof (invoke_frames (cb arg cur) _ HI1) as Hpre.
  destruct (invoke (cb arg cur) (log ev w)) as [w' [v|e]]; simpl in *.
  - split.
    + eapply set_pc_Inv; [done|by eapply prefix_lookup_Some|congruence|done].
    + eapply Q_trans; [by apply Q_log|]. eapply Q_trans; [done|]. apply Q_set_pc.
  - destruct (finish_rel call f (Rejected e) w' HI2) as [H1 H2];
      [by eapply prefix_lookup_Some|congruence|].
    split; [done|].
    eapply Q_trans; [by apply Q_log|]. eapply Q_trans; done.
Qed.

Lemma resume_rel call o w w' :
  resume call o w = Some w' → Inv w → Inv w' ∧ Q w w'.
Proof using Q_refl Q_trans Q_alloc Q_signal Q_install Q_throw Q_log Q_deliver Q_set_pc Q_wake.
  unfold resume. intros Hres HI.
  destruct (frames w !! call) as [f|] eqn:Hf; [|done].
  destruct (pc f) as [|promise|result|] eqn:Hpc; try done.
  - destruct (settles promise o); [|done]. injection Hres as <-.
    pose proof (wake_Inv _ _ _ _ HI Hf Hpc) as HI1.
    pose proof (Q_wake _ _ _ _ HI Hf Hpc) as HQ1.
    set (w1 := finally (thisRef f) (set_pc call Running w)) in *.
    assert (∃ f1, frames w1 !! call = Some f1 ∧ pc f1 = Running) as (f1 & Hf1 & Hpc1).
    { exists (mkFrame (thisRef f) (onFulfilled f) (onRejected f) Running).
      split; [|done]. unfold w1, finally.
      assert (frames (set_pc call Running w) !! call =
              Some (mkFrame (thisRef f) (onFulfilled f) (onRejected f) Running)) as Hx.
      { rewrite set_pc_lookup. rewrite decide_True; [|done]. by rewrite Hf. }
      by destruct (is_current _ _). }
    destruct o as [v|e].
    + destruct (onFulfilled f) as [cb|].
      * destruct (call_back_rel call f1 (EvOnFulfilled call v (is_current (thisRef f) w1))
                    cb v (is_current (thisRef f) w1) w1) as [H1 H2]; try done.
        split; [done|]. by eapply Q_trans.
      * destruct (finish_rel call f1 (Fulfilled v) w1) as [H1 H2];
          [done|done|congruence|].
        split; [done|]. by eapply Q_trans.
    + destruct (onRejected f) as [cb|].
      * destruct (call_back_rel call f1 (EvOnRejected call e (is_current (thisRef f) w1))
                    cb e (is_current (thisRef f) w1) w1) as [H1 H2]; try done.
        split; [done|]. by eapply Q_trans.
      * destruct (finish_rel call f1 (Rejected e) w1) as [H1 H2];
          [done|done|congruence|].
        split; [done|]. by eapply Q_trans.
  - destruct (settles result o); [|done]. injection Hres as <-.
    eapply finish_rel; [done|done|congruence].
Qed.

Lemma tick_rel w w' :
  tick onChangeIsPending w = Some w' → Inv w → Inv w' ∧ Q w w'.
Proof using All.
  unfold tick. intros Ht HI.
  destruct (microtasks w) as [|[b|call o] q] eqn:Hq; [done| |];
    injection Ht as <-; simpl.
  - pose proof (Q_pop_notify b q w Hq) as HQ.
    destruct onChangeIsPending as [f|].
    + destruct (run_job_rel (f b) (log (EvIsPending b) (set_microtasks q w))) as [H1 H2].
      { by apply log_Inv, set_microtasks_Inv. }
      split; [done|]. by eapply Q_trans.
    + split; [by apply set_microtasks_Inv|done].
  - split; [by apply log_Inv, set_microtasks_Inv|].
    eapply Q_trans; [by eapply Q_pop_deliver|]. by apply Q_log.
Qed.

Lemma step_rel a w w' :
  step onChangeIsPending a w = Some w' → Inv w → Inv w' ∧ Q w w'.
Proof using All.
  destruct a as [s| |call o]; simpl.
  - intros [= <-]. apply run_job_rel.
  - apply tick_rel.
  - apply resume_rel.
Qed.

Lemma run_rel acts : ∀ w w',
  run onChangeIsPending acts w = Some w' → Inv w → Inv w' ∧ Q w w'.
Proof using All.
  induction acts as [|a acts IH]; simpl; intros w w' Hrun HI.
  - injection Hrun as <-. done.
  - destruct (step onChangeIsPending a w) as [w1|] eqn:Hs; [|done].
    destruct (step_rel _ _ _ Hs HI) as [H1 H2].
    destruct (IH _ _ Hrun H1) as [H3 H4].
    split; [done|]. by eapply Q_trans.
Qed.
End step_rel.

(** Every state of every execution satisfies [Inv]. *)
Lemma run_Inv onChangeIsPending acts w w' :
  run onChangeIsPending acts w = Some w' → Inv w → Inv w'.
Proof.
  intros Hrun HI.
  by destruct (run_rel onChangeIsPending (λ _ _, True) ltac:(done) ltac:(done)
    ltac:(done) ltac:(done) ltac:(done) ltac:(done) ltac:(done) ltac:(done)
    ltac:(done) ltac:(done) ltac:(done) ltac:(done) acts w w' Hrun HI).
Qed.

(** ** The notification history *)

Lemma notified_app tr e : notified (tr ++ [e]) =
  notified tr ++ match e with EvIsPending b => [b] | _ => [] end.
Proof. unfold notified. rewrite omap_app. by destruct e. Qed.

Lemma queued_app q m : queued (q ++ [m]) =
  queued q ++ match m with MNotify b => [b] | _ => [] end.
Proof. unfold queued. rewrite omap_app. by destruct m. Qed.





Lemma invoke_trace s w : Inv w → trace (invoke s w).1 = trace w.
Proof.
  revert w. apply (invoke_rel (λ w w', trace w' = trace w)).
  - done.
  - intros ??? ??. congruence.
  - done.
  - intros cx w w' c _ Hs. by destruct (signal_fields _ _ _ _ Hs) as (_ & _ & _ & -> & _).
  - intros r p onF onR w _ _. by destruct (install_fields r p onF onR w) as (_ & _ & -> & _).
  - done.
Qed.



(** ** Facts that are stable along every execution *)

Lemma controller_of_supersede r p w :
  controller_of r (supersede p w) = controller_of r w.
Proof.
  unfold supersede, controller_of.
  destruct (refs w !! p) as [x|] eqn:E; [|done].
  assert (refs (match abortController x with
      | Some c => set_controllers (alter (abort VOnePromiseAbortError) c)
                    (set_refs <[p := mkPromiseRef false (abortController x)]> w)
      | None => set_refs <[p := mkPromiseRef false (abortController x)]> w
      end) = <[p := mkPromiseRef false (abortController x)]> (refs w)) as ->
    by (by destruct (abortController x)).
  destruct (decide (r = p)) as [->|Hne].
  - rewrite list_lookup_insert_eq; [|by eapply lookup_lt_Some]. by rewrite E.
  - by rewrite list_lookup_insert_ne.
Qed.

Lemma controller_of_install r r' p onF onR w :
  controller_of r' (install r p onF onR w) = controller_of r' w.
Proof.
  unfold install, bookkeeping. simpl.
  destruct (current w) as [prev|]; [|done].
  change (controller_of r' (supersede prev (set_current (Some r) w)) = controller_of r' w).
  by rewrite controller_of_supersede.
Qed.

Lemma controller_of_signal cx w w' c r c' :
  signal cx w = Some (w', c) →
  controller_of r w = Some c' → controller_of r w' = Some c'.
Proof.
  unfold signal, controller_of.
  destruct (refs w !! cx) as [x|] eqn:E; [|done].
  destruct (abortController x) eqn:Ea.
  - by intros [= <- <-].
  - intros [= <- <-]. simpl. destruct (decide (r = cx)) as [->|Hne].
    + rewrite E. simpl. by rewrite Ea.
    + by rewrite list_lookup_insert_ne.
Qed.

(** Once a record has a controller it keeps that very controller. *)
Lemma run_controller_stable cb acts w w' r c :
  run cb acts w = Some w' → Inv w →
  controller_of r w = Some c → controller_of r w' = Some c.
Proof.
  intros Hrun HI.
  refine (proj2 (run_rel cb
    (λ w w', controller_of r w = Some c → controller_of r w' = Some c)
    _ _ _ _ _ _ _ _ _ _ _ _ acts w w' Hrun HI)); try done.
  - auto.
  - intros w0 _. unfold controller_of, alloc. simpl.
    destruct (refs w0 !! r) as [x|] eqn:E; [|done].
    by rewrite (lookup_app_l_Some _ _ _ _ E).
  - intros cx w0 w1 c0 _ Hs. by eapply controller_of_signal.
  - intros r0 p onF onR w0 _ _. by rewrite controller_of_install.
  - intros call f p w0 _ _ _. unfold finally. by destruct (is_current _ _).
  - intros b q w0 _. by destruct cb.
Qed.

(** A record marked superseded is never current again. *)
Lemma run_superseded_stable cb acts w w' :
  run cb acts w = Some w' → Inv w →
  length (refs w) ≤ length (refs w') ∧
  ∀ r, r < length (refs w) → is_current r w = false → is_current r w' = false.
Proof.
  intros Hrun HI.
  refine (proj2 (run_rel cb
    (λ w w', length (refs w) ≤ length (refs w') ∧
       ∀ r, r < length (refs w) → is_current r w = false → is_current r w' = false)
    _ _ _ _ _ _ _ _ _ _ _ _ acts w w' Hrun HI)); try done.
  - intros w1 w2 w3 [H1 H2] [H3 H4]. split; [lia|].
    intros r Hr Hc. apply H4; [lia|]. by apply H2.
  - intros w0 _. split; [unfold alloc; simpl; rewrite length_app; lia|].
    intros r Hr Hc. by rewrite is_current_alloc.
  - intros cx w0 w1 c0 _ Hs.
    destruct (signal_fields _ _ _ _ Hs) as (_ & _ & _ & _ & Hl & Hi).
    split; [lia|]. intros r _. by rewrite Hi.
  - intros r0 p onF onR w0 _ _.
    destruct (install_fields r0 p onF onR w0) as (_ & _ & _ & Hl & _ & Hi).
    split; [lia|]. intros r _ Hc. by rewrite Hi, Hc.
  - intros call f p w0 _ _ _. unfold finally.
    change (is_current (thisRef f) (set_pc call Running w0))
      with (is_current (thisRef f) w0).
    by destruct (is_current (thisRef f) w0).
  - intros b q w0 _. by destruct cb.
Qed.

(** While no further invocation of "next" begins, no record changes its
    [isCurrent] flag. *)
Lemma run_quiet_stable cb acts w w' :
  run cb acts w = Some w' → Inv w →
  length (refs w) ≤ length (refs w') ∧
  length (frames w) ≤ length (frames w') ∧
  (length (frames w') = length (frames w) →
   ∀ r, r < length (refs w) → is_current r w' = is_current r w).
Proof.
  intros Hrun HI.
  refine (proj2 (run_rel cb
    (λ w w', length (refs w) ≤ length (refs w') ∧
       length (frames w) ≤ length (frames w') ∧
       (length (frames w') = length (frames w) →
        ∀ r, r < length (refs w) → is_current r w' = is_current r w))
    _ _ _ _ _ _ _ _ _ _ _ _ acts w w' Hrun HI)); try done.
  - intros w1 w2 w3 (H1 & H2 & H3) (H4 & H5 & H6). split; [lia|]. split; [lia|].
    intros Hl r Hr. rewrite H6; [|lia|lia]. apply H3; [lia|done].
  - intros w0 _. split; [unfold alloc; simpl; rewrite length_app; lia|].
    split; [done|]. intros _ r Hr. by rewrite is_current_alloc.
  - intros cx w0 w1 c0 _ Hs.
    destruct (signal_fields _ _ _ _ Hs) as (_ & Hf & _ & _ & Hl & Hi).
    rewrite Hf. split; [lia|]. split; [done|]. intros _ r _. by rewrite Hi.
  - intros r0 p onF onR w0 _ _.
    destruct (install_fields r0 p onF onR w0) as (_ & Hf & _ & Hl & _ & _).
    rewrite Hf, Hl, length_app. simpl. split; [lia|]. split; [lia|intros; lia].
  - intros r0 e onF onR w0 _ _. simpl. rewrite length_app. simpl.
    split; [lia|]. split; [lia|intros; lia].
  - intros call s w0. simpl. rewrite length_alter. done.
  - intros call f p w0 _ _ _. unfold finally.
    change (is_current (thisRef f) (set_pc call Running w0))
      with (is_current (thisRef f) w0).
    destruct (is_current (thisRef f) w0); simpl; by rewrite length_alter.
  - intros b q w0 _. by destruct cb.
Qed.

(** ** What a call of "next" does *)

Lemma after_getter_Inv a w :
  Inv w →
  Inv (after_getter a w) ∧ free (length (refs w)) (after_getter a w) ∧
  frames w `prefix_of` frames (after_getter a w).
Proof.
  intros HI. pose proof (alloc_Inv w HI) as HI'.
  pose proof (alloc_free_new w HI) as Hnew.
  destruct a as [v|g]; simpl; [done|].
  destruct (invoke_Inv_free (g (length (refs w))) _ HI') as [H1 H2].
  split; [done|]. split; [by apply H2|].
  by apply (invoke_frames (g (length (refs w))) (alloc w)).
Qed.

Lemma next_started a onF onR w :
  throws_sync a w = false →
  ∃ p, next a onF onR w =
       (install (length (refs w)) p onF onR (after_getter a w),
        length (frames (after_getter a w))).
Proof.
  destruct a as [v|g]; simpl.
  - intros _. exists v. rewrite next_Plain. unfold install, push_frame. simpl.
    f_equal. by destruct (bookkeeping_fields (length (refs w)) (alloc w)) as (_ & -> & _).
  - intros Ht. rewrite next_Function. simpl.
    destruct (invoke (g (length (refs w))) (alloc w)) as [w' [p|e]]; [|done].
    exists p. unfold install, push_frame. simpl.
    f_equal. by destruct (bookkeeping_fields (length (refs w)) w') as (_ & -> & _).
Qed.

Lemma next_thrown g onF onR w :
  throws_sync (Function g) w = true →
  ∃ err, (invoke (g (length (refs w))) (alloc w)).2 = Abrupt err ∧
    next (Function g) onF onR w =
      throw_from_next (length (refs w)) onF onR err (after_getter (Function g) w).
Proof.
  simpl. intros Ht. rewrite next_Function. simpl.
  destruct (invoke (g (length (refs w))) (alloc w)) as [w' [p|e]]; [done|].
  by exists e.
Qed.

(** Installing a record supersedes whatever invocation was still waiting. *)
Lemma install_supersedes r p onF onR w call f q :
  Inv w → frames w !! call = Some f → pc f = AwaitPromise q →
  is_current (thisRef f) (install r p onF onR w) = false.
Proof.
  intros HI Hf Hpc.
  destruct (install_fields r p onF onR w) as (_ & _ & _ & _ & _ & ->).
  destruct (is_current (thisRef f) w) eqn:Hcur; [|done].
  rewrite (inv_awaiting w HI _ _ _ Hf Hpc Hcur). simpl.
  by rewrite bool_decide_eq_true_2.
Qed.

Lemma finally_is_current r r' w : is_current r' (finally r w) = is_current r' w.
Proof. unfold finally. by destruct (is_current r w). Qed.

Lemma finally_trace r w : trace (finally r w) = trace w.
Proof. unfold finally. by destruct (is_current r w). Qed.

Lemma call_back_trace call ev cb arg cur w :
  Inv w → trace (call_back call ev cb arg cur w) = trace w ++ [ev].
Proof.
  intros HI. unfold call_back.
  pose proof (invoke_trace (cb arg cur) (log ev w) (log_Inv _ _ HI)) as Ht.
  by destruct (invoke (cb arg cur) (log ev w)) as [w' [v|e]].
Qed.

Lemma resume_trace call f p o w :
  Inv w → frames w !! call = Some f → pc f = AwaitPromise p → settles p o = true →
  ∃ w', resume call o w = Some w' ∧
        trace w' = trace w ++ completion_event call f o (is_current (thisRef f) w).
Proof.
  intros HI Hf Hpc Hs. unfold resume. rewrite Hf, Hpc, Hs.
  pose proof (wake_Inv _ _ _ _ HI Hf Hpc) as HI1.
  eexists. split; [done|].
  unfold completion_event. rewrite !finally_is_current.
  change (is_current (thisRef f) (set_pc call Running w))
    with (is_current (thisRef f) w).
  destruct o as [v|e].
  - destruct (onFulfilled f) as [cb|].
    + rewrite call_back_trace; [|done]. by rewrite finally_trace.
    + simpl. by rewrite finally_trace, app_nil_r.
  - destruct (onRejected f) as [cb|].
    + rewrite call_back_trace; [|done]. by rewrite finally_trace.
    + simpl. by rewrite finally_trace, app_nil_r.
Qed.

(** ** The [isCurrent] flag handed to completion callbacks *)

(** C2, as stated, fails when the second call is given a getter that
    throws: line 154 leaves [next] before line 156, so the first record is
    not superseded.  Its callback receives [isCurrent = true], and the
    second call's callbacks are never run (its promise is rejected with
    what the getter threw).  It also fails when the second call is made
    from inside the first call's own getter: the first call does its
    bookkeeping only after the getter has returned, so it overtakes the call
    that was made later. *)
Lemma isCurrent_after_throwing_getter :
  (∃ w, run None overtaken_by_throwing_getter init = Some w ∧
        flags_of 0 (trace w) = [true] ∧
        flags_of 1 (trace w) = [] ∧
        pc <$> frames w !! 1 = Some (Settled (Rejected (VString "reason"))) ∧
        resume 1 (Rejected (VString "reason")) w = None) ∧
  (∃ w, run None call_inside_the_getter init = Some w ∧
        thisRef <$> frames w !! 0 = Some 1 ∧ thisRef <$> frames w !! 1 = Some 0 ∧
        trace w = [EvOnFulfilled 0 VNull false; EvOnFulfilled 1 VNull true]).
Proof.
  split; eexists; (split; [vm_compute; reflexivity|vm_compute; done]).
Qed.

(** C2, amended: the first call has returned (it waits at line 167) when
    the second is made, and the second call's source does not throw
    synchronously.  Let [a] be an invocation that is still waiting for its
    operation, in any state of any execution, and let next(b) be called with
    a source that does not throw.  Whenever [a]'s operation settles
    afterwards, its completion callback receives [isCurrent = false]; and if
    no further invocation of "next" begins before [b]'s operation settles,
    [b]'s completion callback receives [isCurrent = true]. *)
Theorem isCurrent_of_two_overlapping_calls cb pre w a fa pa b onF onR :
  run cb pre init = Some w →
  frames w !! a = Some fa → pc fa = AwaitPromise pa →
  throws_sync b w = false →
  let wb := (next b onF onR w).1 in
  let cb_b := (next b onF onR w).2 in
  (∀ acts w2 oa,
     run cb acts wb = Some w2 → frames w2 !! a = Some fa → settles pa oa = true →
     ∃ w3, resume a oa w2 = Some w3 ∧
           trace w3 = trace w2 ++ completion_event a fa oa false) ∧
  (∃ pb, let fb := mkFrame (length (refs w)) onF onR (AwaitPromise pb) in
     frames wb !! cb_b = Some fb ∧
     ∀ acts w2 ob,
       run cb acts wb = Some w2 → length (frames w2) = length (frames wb) →
       frames w2 !! cb_b = Some fb → settles pb ob = true →
       ∃ w3, resume cb_b ob w2 = Some w3 ∧
             trace w3 = trace w2 ++ completion_event cb_b fb ob true).
Proof.
  intros Hpre Ha Hpa Hb wb cb_b.
  pose proof (run_Inv _ _ _ _ Hpre init_Inv) as HI.
  destruct (after_getter_Inv b w HI) as (HI' & Hfree & Hpref).
  destruct (next_started b onF onR w Hb) as [pb Hnext].
  assert (wb = install (length (refs w)) pb onF onR (after_getter b w)) as Hwb
    by (unfold wb; by rewrite Hnext).
  assert (cb_b = length (frames (after_getter b w))) as Hcb
    by (unfold cb_b; by rewrite Hnext).
  clearbody wb cb_b. subst wb cb_b.
  pose proof (install_Inv _ pb onF onR _ HI' Hfree) as HIb.
  destruct (install_fields (length (refs w)) pb onF onR (after_getter b w))
    as (Hcur & Hfr & _ & Hlen & _ & _).
  split.
  - intros acts w2 oa Hrun Ha2 Hs.
    pose proof (run_Inv _ _ _ _ Hrun HIb) as HI2.
    destruct (run_superseded_stable _ _ _ _ Hrun HIb) as [_ Hstab].
    destruct (resume_trace a fa pa oa w2 HI2 Ha2 Hpa Hs) as (w3 & Hres & Htr).
    exists w3. split; [done|]. rewrite Htr. do 2 f_equal.
    apply Hstab.
    + rewrite Hlen. destruct HI' as [Hbound _ _ _]. apply Hbound.
      apply (list_elem_of_lookup_2 _ a).
      by apply (prefix_lookup_Some (frames w)).
    + eapply install_supersedes; [done| |done].
      by apply (prefix_lookup_Some (frames w)).
  - exists pb. cbv zeta. split.
    + rewrite Hfr, lookup_app_r; [|lia]. by rewrite Nat.sub_diag.
    + intros acts w2 ob Hrun Hquiet Hb2 Hs.
      pose proof (run_Inv _ _ _ _ Hrun HIb) as HI2.
      destruct (run_quiet_stable _ _ _ _ Hrun HIb) as (_ & _ & Hstab).
      destruct (resume_trace _ _ pb ob w2 HI2 Hb2 eq_refl Hs) as (w3 & Hres & Htr).
      exists w3. split; [done|]. rewrite Htr. do 2 f_equal. simpl.
      rewrite Hstab; [|done|].
      * by apply (inv_slot _ HIb).
      * rewrite Hlen. destruct Hfree as [Hc%is_current_lt _]. done.
Qed.

Lemma isCurrent_of_two_overlapping_calls_witness :
  let wb := (next (Plain (VPromiseLike 1)) (Some ignore) None one_waiting).1 in
  (∃ w3, resume 0 (Fulfilled VNull) wb = Some w3 ∧
         trace w3 = trace wb ++ [EvOnFulfilled 0 VNull false]) ∧
  (∃ w3, resume 1 (Fulfilled VNull) wb = Some w3 ∧
         trace w3 = trace wb ++ [EvOnFulfilled 1 VNull true]).
Proof.
  intros wb.
  destruct (isCurrent_of_two_overlapping_calls None
    [Turn (call_next (Plain (VPromiseLike 0)) (Some ignore) None)]
    one_waiting 0
    (mkFrame 0 (Some ignore) None (AwaitPromise (VPromiseLike 0)))
    (VPromiseLike 0) (Plain (VPromiseLike 1)) (Some ignore) None)
    as [Ha (pb & Hfb & Hb)].
  - vm_compute. reflexivity.
  - vm_compute. reflexivity.
  - reflexivity.
  - reflexivity.
  - split.
    + apply (Ha [] wb (Fulfilled VNull)).
      * reflexivity.
      * vm_compute. reflexivity.
      * reflexivity.
    + vm_compute in Hfb. injection Hfb as <-.
      apply (Hb [] wb (Fulfilled VNull)).
      * reflexivity.
      * reflexivity.
      * vm_compute. reflexivity.
      * reflexivity.
Defined.

(** ** A getter that throws *)

(** C3, as stated, fails: when the getter throws, lines 156-163 are not
    reached.  After next(p0) and then next(throwing getter) the slot still
    holds the first record, which is still current; and from the initial
    state no pending notification is scheduled. *)
Lemma throwing_getter_skips_bookkeeping :
  (∃ w, run None [ Turn (call_next (Plain (VPromiseLike 0)) None None);
                   Turn (call_next (Function throwing_getter) None None) ] init
        = Some w ∧
        current w = Some 0 ∧ is_current 0 w = true ∧
        microtasks w = [MNotify true; MDeliver 1 (Rejected (VString "reason"))]) ∧
  (∃ w, run None [ Turn (call_next (Function throwing_getter) None None) ] init
        = Some w ∧
        current w = None ∧
        microtasks w = [MDeliver 0 (Rejected (VString "reason"))]).
Proof.
  split; eexists; (split; [vm_compute; reflexivity|vm_compute; done]).
Qed.

(** C3, amended: what a throwing getter threw becomes the rejection of
    the promise returned by "next" (the caller's code continues, nothing
    escapes synchronously, and neither completion callback will run), and no
    bookkeeping is done for that call: the slot, every record and every
    controller are as the getter left them, and no notification is
    scheduled. *)
Theorem throwing_getter_rejects_without_bookkeeping g onF onR w :
  throws_sync (Function g) w = true →
  let w' := after_getter (Function g) w in
  let w1 := (next (Function g) onF onR w).1 in
  let call := (next (Function g) onF onR w).2 in
  ∃ err,
    invoke (g (length (refs w))) (alloc w) = (w', Abrupt err) ∧
    call = length (frames w') ∧
    frames w1 = frames w' ++ [mkFrame (length (refs w)) onF onR (Settled (Rejected err))] ∧
    microtasks w1 = microtasks w' ++ [MDeliver call (Rejected err)] ∧
    current w1 = current w' ∧ refs w1 = refs w' ∧
    controllers w1 = controllers w' ∧ trace w1 = trace w' ∧
    (∀ o, resume call o w1 = None) ∧
    (∀ k, invoke (CallNext (Function g) onF onR k) w = invoke k w1).
Proof.
  intros Ht w' w1 call.
  destruct (next_thrown g onF onR w Ht) as (err & Herr & Hnext).
  exists err. unfold w1, call. rewrite Hnext. fold w'.
  split; [|split_and!; try done].
  - unfold w'. simpl. simpl in Herr.
    by destruct (invoke (g (length (refs w))) (alloc w)) as [? ?]; simpl in *; subst.
  - intros o. unfold resume, throw_from_next. simpl.
    rewrite lookup_app_r; [|lia]. by rewrite Nat.sub_diag.
  - intros k. rewrite invoke_CallNext. by rewrite Hnext.
Qed.

Lemma throwing_getter_rejects_without_bookkeeping_witness :
  let w1 := (next (Function throwing_getter) None (Some ignore) one_waiting).1 in
  current w1 = Some 0 ∧ is_current 0 w1 = true ∧
  microtasks w1 = [MNotify true; MDeliver 1 (Rejected (VString "reason"))].
Proof.
  intros w1.
  destruct (throwing_getter_rejects_without_bookkeeping
              throwing_getter None (Some ignore) one_waiting)
    as (err & Hinv & Hcall & Hfr & Hq & Hcur & Href & _).
  - reflexivity.
  - fold w1 in Hq, Hcur, Href. unfold is_current. rewrite Hcur, Href.
    injection Hinv as <-. vm_compute. done.
Defined.

(** ** The current slot *)

(** C4, as stated, fails in two ways.  A record that settles while
    current keeps [isCurrent = true] after the slot is cleared (line 170 does
    not touch the flag, which lines 178 and 183 still read), so after a later
    call two records have the flag set and one of them is not in the slot
    (its context still hands out a signal that is not aborted).
    And a new record is created with [isCurrent = true] at line 151, before
    the getter runs at line 154 and before the previous record is marked at
    line 159: the getter of the second call runs in a world where both
    records are current. *)
Lemma two_records_with_isCurrent :
  (∃ w, run None settle_then_call_again init = Some w ∧
        is_current 0 w = true ∧ is_current 1 w = true ∧ current w = Some 1 ∧
        ∃ w' c, signal 0 w = Some (w', c) ∧
                aborted <$> controllers w' !! c = Some false) ∧
  (let w := alloc one_waiting in
   is_current 0 w = true ∧ is_current 1 w = true ∧ current w = Some 0 ∧
   ∀ g onF onR,
     next (Function g) onF onR one_waiting =
     match invoke (g 1) w with
     | (w', Normal promise) =>
       push_frame (mkFrame 1 onF onR (AwaitPromise promise)) (bookkeeping 1 w')
     | (w', Abrupt err) => throw_from_next 1 onF onR err w'
     end).
Proof.
  split.
  - eexists. split; [vm_compute; reflexivity|].
    split_and!; [vm_compute; done ..|].
    eexists _, _. split; vm_compute; reflexivity.
  - cbv zeta. split_and!; [vm_compute; done ..|].
    intros g onF onR. apply next_Function.
Qed.

(** C4, amended to the records whose operation is still awaited, in the
    states between synchronous steps.  In every such state the slot, when
    occupied, holds a record that is awaited and has [isCurrent = true]; an
    awaited record with [isCurrent = true] is the one in the slot; so at most
    one awaited record is current.  A call of "next" that reaches its [await]
    leaves, in one synchronous step, the new record in the slot with
    [isCurrent = true] and the record that was in the slot with
    [isCurrent = false]. *)
Theorem awaited_current_record_is_the_slot cb acts w :
  run cb acts init = Some w →
  (∀ r, current w = Some r →
     is_current r w = true ∧
     ∃ call f p, frames w !! call = Some f ∧ thisRef f = r ∧ pc f = AwaitPromise p) ∧
  (∀ call f p, frames w !! call = Some f → pc f = AwaitPromise p →
     is_current (thisRef f) w = true → current w = Some (thisRef f)) ∧
  (∀ c1 f1 p1 c2 f2 p2,
     frames w !! c1 = Some f1 → pc f1 = AwaitPromise p1 →
     frames w !! c2 = Some f2 → pc f2 = AwaitPromise p2 →
     is_current (thisRef f1) w = true → is_current (thisRef f2) w = true →
     c1 = c2) ∧
  (∀ b onF onR, throws_sync b w = false →
     let w1 := (next b onF onR w).1 in
     current w1 = Some (length (refs w)) ∧
     is_current (length (refs w)) w1 = true ∧
     ∀ prev, current w = Some prev → is_current prev w1 = false).
Proof.
  intros Hrun. pose proof (run_Inv _ _ _ _ Hrun init_Inv) as HI.
  split_and!.
  - apply (inv_slot _ HI).
  - apply (inv_awaiting _ HI).
  - intros c1 f1 p1 c2 f2 p2 H1 Hp1 H2 Hp2 Hc1 Hc2.
    pose proof (inv_awaiting _ HI _ _ _ H1 Hp1 Hc1) as E1.
    pose proof (inv_awaiting _ HI _ _ _ H2 Hp2 Hc2) as E2.
    eapply (NoDup_lookup _ c1 c2 (thisRef f1) (inv_nodup _ HI));
      rewrite list_lookup_fmap.
    + by rewrite H1.
    + rewrite H2. simpl. congruence.
  - intros b onF onR Hb w1.
    destruct (after_getter_Inv b w HI) as (HI' & Hfree & Hpref).
    destruct (next_started b onF onR w Hb) as [pb Hnext].
    unfold w1. rewrite Hnext. simpl.
    pose proof (install_Inv _ pb onF onR _ HI' Hfree) as HIb.
    destruct (install_fields (length (refs w)) pb onF onR (after_getter b w))
      as (Hcur & _).
    split_and!.
    + done.
    + by apply (inv_slot _ HIb).
    + intros prev Hprev.
      destruct (inv_slot _ HI _ Hprev) as (_ & call & f & p & Hf & <- & Hp).
      eapply install_supersedes; [done| |done].
      by apply (prefix_lookup_Some (frames w)).
Qed.

Lemma awaited_current_record_is_the_slot_witness :
  let w1 := (next (Plain VNull) None None one_waiting).1 in
  current w1 = Some 1 ∧ is_current 1 w1 = true ∧ is_current 0 w1 = false.
Proof.
  intros w1.
  destruct (awaited_current_record_is_the_slot None
    [Turn (call_next (Plain (VPromiseLike 0)) (Some ignore) None)] one_waiting)
    as (_ & _ & _ & H).
  - vm_compute. reflexivity.
  - destruct (H (Plain VNull) None None eq_refl) as (H1 & H2 & H3).
    split_and!; [exact H1|exact H2|].
    apply H3. reflexivity.
Defined.

(** ** Completion callbacks *)

Lemma resume_callback call f p o cbk arg w :
  frames w !! call = Some f → pc f = AwaitPromise p → settles p o = true →
  handler f o = (Some cbk, arg) →
  resume call o w =
  Some match invoke (cbk arg (is_current (thisRef f) w)) (callback_world call f o w) with
       | (w', Normal result) => set_pc call (AwaitCallback result) w'
       | (w', Abrupt e) => finish call (Rejected e) w'
       end.
Proof.
  intros Hf Hpc Hs Hh. unfold resume. rewrite Hf, Hpc, Hs. f_equal.
  unfold callback_world, completion_event, call_back.
  rewrite !finally_is_current.
  change (is_current (thisRef f) (set_pc call Running w))
    with (is_current (thisRef f) w).
  destruct o as [v|e]; simpl in Hh; injection Hh as -> ->; done.
Qed.

Lemma callback_world_Inv call f p o w :
  Inv w → frames w !! call = Some f → pc f = AwaitPromise p →
  Inv (callback_world call f o w) ∧
  ∃ f', frames (callback_world call f o w) !! call = Some f' ∧
        thisRef f' = thisRef f ∧ pc f' = Running.
Proof.
  intros HI Hf Hpc. pose proof (wake_Inv _ _ _ _ HI Hf Hpc) as HI1.
  assert (frames (finally (thisRef f) (set_pc call Running w)) !! call =
          Some (mkFrame (thisRef f) (onFulfilled f) (onRejected f) Running)) as Hx.
  { unfold finally.
    assert (frames (set_pc call Running w) !! call =
            Some (mkFrame (thisRef f) (onFulfilled f) (onRejected f) Running)) as Hx.
    { rewrite set_pc_lookup. rewrite decide_True; [|done]. by rewrite Hf. }
    by destruct (is_current _ _). }
  unfold callback_world.
  destruct (completion_event call f o (is_current (thisRef f) w)) as [|ev ?].
  - split; [done|]. eauto.
  - split; [by apply log_Inv|]. eauto.
Qed.

Lemma set_pc_at call s w f :
  frames w !! call = Some f →
  pc <$> frames (set_pc call s w) !! call = Some s.
Proof.
  intros Hf. rewrite set_pc_lookup, decide_True; [|done]. by rewrite Hf.
Qed.

(** C5. A completion callback is only ever run for the outcome of the
    awaited operation: when the operation of an invocation settles with [o]
    and the callback for [o] is supplied, that callback is the only one run
    (the trace grows by exactly its call).  If it throws [e], the promise
    returned by "next" is rejected with [e]; if it returns something that
    later rejects with [e], the promise is rejected with [e] then, and again
    no callback is run.  So a failure inside [onFulfilled] never reaches
    [onRejected], whether or not [onRejected] was supplied. *)
Theorem callback_failure_goes_to_the_caller cb pre w call f p o cbk arg :
  run cb pre init = Some w →
  frames w !! call = Some f → pc f = AwaitPromise p → settles p o = true →
  handler f o = (Some cbk, arg) →
  let cur := is_current (thisRef f) w in
  let ran := invoke (cbk arg cur) (callback_world call f o w) in
  ∃ w1, resume call o w = Some w1 ∧
    trace w1 = trace w ++ completion_event call f o cur ∧
    length (completion_event call f o cur) = 1 ∧
    match ran.2 with
    | Abrupt e =>
      pc <$> frames w1 !! call = Some (Settled (Rejected e)) ∧
      microtasks w1 = microtasks ran.1 ++ [MDeliver call (Rejected e)]
    | Normal result =>
      pc <$> frames w1 !! call = Some (AwaitCallback result) ∧
      ∀ e, settles result (Rejected e) = true →
        ∃ w2, resume call (Rejected e) w1 = Some w2 ∧
              trace w2 = trace w1 ∧
              pc <$> frames w2 !! call = Some (Settled (Rejected e)) ∧
              microtasks w2 = microtasks w1 ++ [MDeliver call (Rejected e)]
    end.
Proof.
  intros Hrun Hf Hpc Hs Hh cur ran.
  pose proof (run_Inv _ _ _ _ Hrun init_Inv) as HI.
  destruct (resume_trace call f p o w HI Hf Hpc Hs) as (w1 & Hres & Htr).
  exists w1. split; [done|]. split; [done|]. split.
  { unfold completion_event. destruct o; simpl in Hh; injection Hh as -> ->; done. }
  rewrite (resume_callback _ _ _ _ _ _ _ Hf Hpc Hs Hh) in Hres.
  destruct (callback_world_Inv call f p o w HI Hf Hpc) as (HIc & f' & Hf' & _ & Hpc').
  pose proof (invoke_frames (cbk arg cur) _ HIc) as Hpre.
  fold cur ran in Hres, Hpre.
  assert (frames ran.1 !! call = Some f') as Hf1
    by (by apply (prefix_lookup_Some (frames (callback_world call f o w)))).
  destruct ran as [w' [result|e]]; simpl in *; injection Hres as <-.
  - split; [by eapply set_pc_at|].
    intros e He. unfold resume.
    assert (frames (set_pc call (AwaitCallback result) w') !! call =
            Some (mkFrame (thisRef f') (onFulfilled f') (onRejected f')
                    (AwaitCallback result))) as ->.
    { rewrite set_pc_lookup, decide_True; [|done]. by rewrite Hf1. }
    simpl. rewrite He. eexists. split; [done|]. split; [done|]. split; [|done].
    unfold finish. simpl. rewrite list_lookup_alter_eq, list_lookup_alter_eq.
    by rewrite Hf1.
  - split; [|done]. unfold finish. simpl. rewrite list_lookup_alter_eq.
    by rewrite Hf1.
Qed.

Lemma callback_failure_goes_to_the_caller_witness :
  let w := (next (Plain VNull) (Some throwing_callback) (Some ignore) init).1 in
  ∃ w1, resume 0 (Fulfilled VNull) w = Some w1 ∧
        trace w1 = [EvOnFulfilled 0 VNull true] ∧
        pc <$> frames w1 !! 0 = Some (Settled (Rejected (VString "things"))).
Proof.
  intros w.
  destruct (callback_failure_goes_to_the_caller None
    [Turn (call_next (Plain VNull) (Some throwing_callback) (Some ignore))]
    w 0 (mkFrame 0 (Some throwing_callback) (Some ignore) (AwaitPromise VNull))
    VNull (Fulfilled VNull) throwing_callback VNull)
    as (w1 & Hres & Htr & _ & Hpc & _).
  - vm_compute. reflexivity.
  - vm_compute. reflexivity.
  - reflexivity.
  - reflexivity.
  - reflexivity.
  - exists w1. split; [exact Hres|]. split; [exact Htr|exact Hpc].
Defined.

(** ** A failing [onChangeIsPending] *)

Lemma invoke_microtasks s w : Inv w → microtasks w `prefix_of` microtasks (invoke s w).1.
Proof.
  revert w. apply (invoke_rel (λ w w', microtasks w `prefix_of` microtasks w')).
  - done.
  - intros ??? ??. by etrans.
  - done.
  - intros cx w w' c _ Hs. by destruct (signal_fields _ _ _ _ Hs) as (_ & _ & -> & _).
  - intros r p onF onR w _ _.
    destruct (install_fields r p onF onR w) as (_ & _ & _ & _ & -> & _).
    by apply prefix_app_r.
  - intros r e onF onR w _ _. simpl. by apply prefix_app_r.
Qed.

(** C6. The notification is a microtask of its own.  Running it changes
    no invocation of "next" that exists (neither its position nor its
    callbacks nor its settlement), runs no completion callback, and leaves the
    rest of the queue in place; what [onChangeIsPending] throws is reported by
    the host and is the only difference from a callback that returned. *)
Theorem notification_failure_is_detached f pre w b q :
  run (Some f) pre init = Some w → microtasks w = MNotify b :: q →
  let ran := invoke (f b) (log (EvIsPending b) (set_microtasks q w)) in
  ∃ w1, tick (Some f) w = Some w1 ∧
    (∀ call fr, frames w !! call = Some fr → frames w1 !! call = Some fr) ∧
    q `prefix_of` microtasks w1 ∧
    match ran.2 with
    | Abrupt e =>
      w1 = log (EvUncaught e) ran.1 ∧
      trace w1 = trace w ++ [EvIsPending b; EvUncaught e]
    | Normal _ =>
      w1 = ran.1 ∧ trace w1 = trace w ++ [EvIsPending b]
    end.
Proof.
  intros Hrun Hq ran.
  pose proof (run_Inv _ _ _ _ Hrun init_Inv) as HI.
  assert (Inv (log (EvIsPending b) (set_microtasks q w))) as HI1
    by (by apply log_Inv, set_microtasks_Inv).
  pose proof (invoke_frames (f b) _ HI1) as Hfr.
  pose proof (invoke_microtasks (f b) _ HI1) as Hmq.
  pose proof (invoke_trace (f b) _ HI1) as Htr.
  fold ran in Hfr, Hmq, Htr.
  unfold tick. rewrite Hq. simpl. unfold run_job. fold ran.
  destruct ran as [w' [v|e]]; simpl in *; eexists; (split; [done|]).
  - split; [intros call fr Hlk; by apply (prefix_lookup_Some (frames w))|].
    by rewrite Htr.
  - split; [intros call fr Hlk; by apply (prefix_lookup_Some (frames w))|].
    split; [done|]. split; [done|]. simpl. by rewrite Htr, <- app_assoc.
Qed.

Lemma notification_failure_is_detached_witness :
  let w := (next (Plain (VString "value")) None (Some ignore) init).1 in
  ∃ w1, tick (Some throwing_notifier) w = Some w1 ∧
        trace w1 = [EvIsPending true; EvUncaught (VString "reason")] ∧
        frames w1 !! 0 = frames w !! 0 ∧
        ∃ w2, resume 0 (Fulfilled (VString "value")) w1 = Some w2 ∧
              pc <$> frames w2 !! 0 = Some (Settled (Fulfilled (VString "value"))) ∧
              flags_of 0 (trace w2) = [].
Proof.
  intros w.
  destruct (notification_failure_is_detached throwing_notifier
    [Turn (call_next (Plain (VString "value")) None (Some ignore))] w true [])
    as (w1 & Htick & Hfr & _ & Hw1 & Htr).
  - vm_compute. reflexivity.
  - reflexivity.
  - exists w1. split; [exact Htick|]. split; [exact Htr|].
    subst w1. split; [vm_compute; reflexivity|].
    eexists. split; [vm_compute; reflexivity|]. vm_compute. done.
Defined.

(** ** The cancellation context *)

(** C7. A [signal] that is first requested when the record is already
    superseded comes back aborted, with a [OnePromiseAbortError] as reason. *)
Theorem signal_requested_late_is_aborted ref r w :
  refs w !! ref = Some r → isCurrent r = false → abortController r = None →
  ∃ w' c, signal ref w = Some (w', c) ∧
    c = length (controllers w) ∧
    controllers w' !! c = Some (mkAbortController true (Some VOnePromiseAbortError)) ∧
    controller_of ref w' = Some c.
Proof.
  intros Hr Hcur Hctl. unfold signal. rewrite Hr, Hctl, Hcur. simpl.
  eexists _, _. split; [done|]. split; [done|]. split.
  - simpl. rewrite lookup_app_r; [|lia]. by rewrite Nat.sub_diag.
  - unfold controller_of. simpl.
    rewrite list_lookup_insert_eq; [done|]. by eapply lookup_lt_Some.
Qed.

Lemma signal_requested_late_is_aborted_witness :
  ∃ w' c, signal 0 superseded_before_signal = Some (w', c) ∧
    controllers w' !! c = Some (mkAbortController true (Some VOnePromiseAbortError)).
Proof.
  destruct (signal_requested_late_is_aborted 0 (mkPromiseRef false None)
              superseded_before_signal)
    as (w' & c & Hs & _ & Hc & _).
  - vm_compute. reflexivity.
  - reflexivity.
  - reflexivity.
  - exists w', c. split; [exact Hs|exact Hc].
Defined.





(** ** Functions as first argument *)

(** C9. An argument whose [typeof] is ["function"] is a getter for
    "next": it is called with the context of the new record, before the
    bookkeeping, and what is awaited is what it returned (or the call is
    rejected with what it threw).  The function itself is never the awaited
    value. *)
Theorem function_argument_is_called valueArg onF onR w :
  typeof valueArg = "function" →
  ∃ getter, valueArg = Function getter ∧
    next valueArg onF onR w =
    let thisRef := length (refs w) in
    match invoke (getter thisRef) (alloc w) with
    | (w', Normal promise) =>
      push_frame (mkFrame thisRef onF onR (AwaitPromise promise)) (bookkeeping thisRef w')
    | (w', Abrupt err) => throw_from_next thisRef onF onR err w'
    end.
Proof.
  destruct valueArg as [v|getter]; simpl.
  - by destruct v.
  - intros _. exists getter. split; [done|]. apply next_Function.
Qed.

Lemma function_argument_is_called_witness :
  ∃ w, next (Function (λ cx, GetSignal cx (λ c, Return (VAbortSignal c)))) None None init
       = (w, 0) ∧
       pc <$> frames w !! 0 = Some (AwaitPromise (VAbortSignal 0)) ∧
       controller_of 0 w = Some 0.
Proof.
  destruct (function_argument_is_called
    (Function (λ cx, GetSignal cx (λ c, Return (VAbortSignal c)))) None None init)
    as (getter & Heq & Hnext).
  - reflexivity.
  - injection Heq as <-. eexists. split; [rewrite Hnext; vm_compute; reflexivity|].
    vm_compute. done.
Defined.

(** ** How calls change the pending status *)

Lemma pending_step_trans w1 w2 w3 :
  pending_step w1 w2 → pending_step w2 w3 → pending_step w1 w3.
Proof.
  intros [H1 H2] [H3 H4]. split; [auto|]. rewrite H4, H2, <- app_assoc. f_equal.
  destruct (is_pending w1), (is_pending w2), (is_pending w3);
    try done; try (by specialize (H1 eq_refl)); by specialize (H3 eq_refl).
Qed.

Lemma pending_step_same w w' :
  current w' = current w → queued (microtasks w') = queued (microtasks w) →
  pending_step w w'.
Proof.
  intros Hc Hq. unfold pending_step, is_pending. rewrite Hc, Hq.
  split; [done|]. destruct (current w); by rewrite app_nil_r.
Qed.

Lemma invoke_pending s w : Inv w → pending_step w (invoke s w).1.
Proof.
  revert w. apply (invoke_rel pending_step).
  - intros w. by apply pending_step_same.
  - apply pending_step_trans.
  - intros w _. by apply pending_step_same.
  - intros cx w w' c _ Hs.
    destruct (signal_fields _ _ _ _ Hs) as (Hc & _ & Hm & _).
    apply pending_step_same; [done|by rewrite Hm].
  - intros r p onF onR w _ _.
    destruct (install_fields r p onF onR w) as (Hc & _ & _ & _ & Hm & _).
    unfold pending_step. unfold is_pending at 2 4. rewrite Hc, Hm. split; [done|].
    destruct (is_pending w); simpl; [by rewrite !app_nil_r|by rewrite queued_app].
  - intros r e onF onR w _ _. apply pending_step_same; [done|].
    simpl. by rewrite queued_app, app_nil_r.
Qed.

(** A call that reaches its [await] leaves the slot occupied by its own
    record, and one [true] more in the queue exactly if the slot was empty
    before. *)
Lemma next_pending a onF onR w :
  Inv w → throws_sync a w = false →
  current (next a onF onR w).1 = Some (length (refs w)) ∧
  queued (microtasks (next a onF onR w).1) =
    queued (microtasks w) ++ (if is_pending w then [] else [true]) ∧
  trace (next a onF onR w).1 = trace w.
Proof.
  intros HI Ha.
  pose proof (invoke_pending (call_next a onF onR) w HI) as [_ Hq].
  pose proof (invoke_trace (call_next a onF onR) w HI) as Ht.
  unfold call_next in Hq, Ht. rewrite invoke_CallNext in Hq, Ht. simpl in Hq, Ht.
  destruct (next_started a onF onR w Ha) as [p Hnext].
  assert (current (next a onF onR w).1 = Some (length (refs w))) as Hc.
  { rewrite Hnext. cbn [fst].
    by destruct (install_fields (length (refs w)) p onF onR (after_getter a w)) as (-> & _). }
  split; [done|]. split; [|done].
  rewrite Hq. unfold is_pending at 2. by rewrite Hc.
Qed.

Lemma first_call_spec s w a onF onR k w' :
  first_call s w a onF onR k w' →
  invoke s w = invoke k (next a onF onR w').1 ∧
  current w' = current w ∧ microtasks w' = microtasks w ∧
  length (refs w') = length (refs w) ∧ (Inv w → Inv w').
Proof.
  induction 1 as [a onF onR k w|cx kk w w1 c a onF onR k w' Hs _ IH].
  - split; [apply invoke_CallNext|done].
  - destruct IH as (H1 & H2 & H3 & H4 & H5).
    destruct (signal_fields _ _ _ _ Hs) as (Hc & _ & Hm & _ & Hl & _).
    rewrite invoke_GetSignal, Hs. split; [done|].
    split; [congruence|]. split; [congruence|]. split; [congruence|].
    intros HI. apply H5. by eapply signal_Inv.
Qed.




(** ** Pending notifications *)




(** ** Completion while current *)

(** C10, as stated, fails for two kinds of reentrant calls.  If the
    callback calls "next" with a getter that throws, that call leaves at line
    154: the slot stays empty and no [true] is queued.  If the callback calls
    "next" twice, the second call finds the slot occupied by the first and
    queues nothing. *)
Lemma reentrant_calls_that_schedule_nothing :
  (∃ w1, resume 0 (Fulfilled VNull)
           (next (Plain VNull) (Some reentrant_throwing) None init).1 = Some w1 ∧
         current w1 = None ∧ queued (microtasks w1) = [true; false]) ∧
  (∃ w1, resume 0 (Fulfilled VNull)
           (next (Plain VNull) (Some reentrant_twice) None init).1 = Some w1 ∧
         current w1 = Some 2 ∧ queued (microtasks w1) = [true; false; true]).
Proof.
  split; eexists; (split; [vm_compute; reflexivity|vm_compute; done]).
Qed.

(** C10, amended to the first reentrant call and to sources that do not
    throw.  When an operation settles while its record is current, the
    completion callback starts in a world where the slot is already empty and
    the [false] notification is already queued.  The first call of "next"
    the callback makes is therefore entered with the slot empty; and if its
    source does not throw synchronously, then when it returns its record is
    in the slot and exactly one [true] notification has been queued behind
    the [false] one (right behind it when the source is not a function). *)
Theorem slot_is_cleared_before_the_callback cb pre w call f p o cbk arg :
  run cb pre init = Some w →
  frames w !! call = Some f → pc f = AwaitPromise p → settles p o = true →
  is_current (thisRef f) w = true →
  handler f o = (Some cbk, arg) →
  let w_cb := callback_world call f o w in
  current w = Some (thisRef f) ∧
  current w_cb = None ∧
  microtasks w_cb = microtasks w ++ [MNotify false] ∧
  trace w_cb = trace w ++ completion_event call f o true ∧
  resume call o w =
    Some match invoke (cbk arg true) w_cb with
         | (w', Normal result) => set_pc call (AwaitCallback result) w'
         | (w', Abrupt e) => finish call (Rejected e) w'
         end ∧
  ∀ src onF onR k w', first_call (cbk arg true) w_cb src onF onR k w' →
    let w_n := (next src onF onR w').1 in
    invoke (cbk arg true) w_cb = invoke k w_n ∧
    current w' = None ∧
    microtasks w' = microtasks w ++ [MNotify false] ∧
    (throws_sync src w' = false →
       current w_n = Some (length (refs w)) ∧
       queued (microtasks w_n) = queued (microtasks w) ++ [false; true]) ∧
    (∀ v, src = Plain v →
       current w_n = Some (length (refs w)) ∧
       microtasks w_n = microtasks w ++ [MNotify false; MNotify true]).
Proof.
  intros Hrun Hf Hpc Hs Hcur Hh w_cb.
  pose proof (run_Inv _ _ _ _ Hrun init_Inv) as HI.
  pose proof (resume_callback _ _ _ _ _ _ _ Hf Hpc Hs Hh) as Hres.
  rewrite Hcur in Hres. fold w_cb in Hres.
  assert (∃ ev, completion_event call f o true = [ev]) as [ev Hev].
  { unfold completion_event. destruct o; simpl in Hh; injection Hh as -> ->; eauto. }
  assert (w_cb = log ev (queueMicrotask (MNotify false)
                           (set_current None (set_pc call Running w)))) as Hw.
  { unfold w_cb, callback_world, finally.
    change (is_current (thisRef f) (set_pc call Running w))
      with (is_current (thisRef f) w).
    by rewrite Hcur, Hev. }
  destruct (callback_world_Inv call f p o w HI Hf Hpc) as (HIc & _).
  fold w_cb in HIc.
  split_and!.
  - by eapply (inv_awaiting _ HI).
  - by rewrite Hw.
  - by rewrite Hw.
  - by rewrite Hw, Hev.
  - done.
  - intros src onF onR k w' Hfirst w_n.
    destruct (first_call_spec _ _ _ _ _ _ _ Hfirst) as (Hinv & Hc' & Hm' & Hl' & HI').
    specialize (HI' HIc).
    assert (current w' = None) as Hnone by (by rewrite Hc', Hw).
    assert (microtasks w' = microtasks w ++ [MNotify false]) as Hq' by (by rewrite Hm', Hw).
    assert (length (refs w') = length (refs w)) as Hlen by (by rewrite Hl', Hw).
    split_and!; try done.
    + intros Hsrc.
      destruct (next_pending src onF onR w' HI' Hsrc) as (Hcn & Hqn & _).
      fold w_n in Hcn, Hqn. split; [by rewrite Hcn, Hlen|].
      rewrite Hqn. unfold is_pending. rewrite Hnone, Hq', queued_app.
      by rewrite <- app_assoc.
    + intros v ->.
      assert (w_n = install (length (refs w')) v onF onR (alloc w')) as -> by done.
      destruct (install_fields (length (refs w')) v onF onR (alloc w'))
        as (Hc & _ & _ & _ & Hm & _).
      split; [by rewrite Hc, Hlen|].
      rewrite Hm. unfold is_pending. simpl. rewrite Hnone, Hq'.
      by rewrite <- app_assoc.
Qed.


Lemma slot_is_cleared_before_the_callback_witness :
  let w := (next (Plain VNull) (Some reentrant) None init).1 in
  ∃ w1, resume 0 (Fulfilled VNull) w = Some w1 ∧
        current w1 = Some 1 ∧
        microtasks w1 = [MNotify true; MNotify false; MNotify true].
Proof.
  intros w.
  destruct (slot_is_cleared_before_the_callback None
    [Turn (call_next (Plain VNull) (Some reentrant) None)]
    w 0 (mkFrame 0 (Some reentrant) None (AwaitPromise VNull))
    VNull (Fulfilled VNull) reentrant VNull)
    as (_ & _ & _ & _ & Hres & _).
  - vm_compute. reflexivity.
  - vm_compute. reflexivity.
  - reflexivity.
  - reflexivity.
  - vm_compute. reflexivity.
  - reflexivity.
  - eexists. split; [exact Hres|]. vm_compute. done.
Defined.

(** ** The repository's tests, replayed on the model *)

(** "called with true again for a second promise" *)
Example test_second_promise :
  ∃ w, run (Some recorder)
         [ Turn (call_next (Plain VNull) None None); Resume 0 (Fulfilled VNull);
           Tick; Tick; Tick;
           Turn (call_next (Plain VNull) None None); Resume 1 (Fulfilled VNull);
           Tick; Tick; Tick ] init = Some w ∧
       notified (trace w) = [true; false; true; false].
Proof. eexists. split; [vm_compute; reflexivity|vm_compute; done]. Qed.

(** "is not invoked with false when a non-current promise resolves" *)
Example test_non_current_resolves :
  ∃ w, run (Some recorder)
         [ Turn (call_next (Plain (VPromiseLike 0)) None None);
           Turn (call_next (Plain (VPromiseLike 1)) None None);
           Tick; Resume 0 (Fulfilled VUndefined); Tick ] init = Some w ∧
       trace w = [EvIsPending true; EvDelivered 0 (Fulfilled VUndefined)] ∧
       microtasks w = [].
Proof. eexists. split; [vm_compute; reflexivity|vm_compute; done]. Qed.

(** "is not invoked with redundant calls when there are multiple pending
    notifications": the second call's getter resolves the first promise. *)
Example test_no_redundant_calls :
  ∃ w, run (Some recorder)
         [ Turn (call_next (Plain (VPromiseLike 0)) None None);
           Turn (call_next (Function (λ _, Return VUndefined)) None None);
           Tick; Resume 0 (Fulfilled VUndefined); Resume 1 (Fulfilled VUndefined);
           Tick; Tick; Tick ] init = Some w ∧
       notified (trace w) = [true; false] ∧
       last (trace w) = Some (EvDelivered 1 (Fulfilled VUndefined)).
Proof. eexists. split; [vm_compute; reflexivity|vm_compute; done]. Qed.

(** "aborts with OnePromiseAbortError when a second promise is provided" *)
Example test_abort_on_second_promise :
  let w1 := (next (Function (λ cx, GetSignal cx (λ _, Return (VPromiseLike 0))))
               None None init).1 in
  let w2 := (next (Plain (VPromiseLike 1)) None None w1).1 in
  controllers w1 = [mkAbortController false None] ∧
  controllers w2 = [mkAbortController true (Some VOnePromiseAbortError)].
Proof. vm_compute. done. Qed.

(** "does not create AbortController" when the signal is not requested,
    and "isCurrent is false even if next is called with the same value". *)
Example test_no_controller_and_same_value :
  ∃ w, run None
         [ Turn (call_next (Plain (VString "same value")) (Some ignore) None);
           Turn (call_next (Plain (VString "same value")) None None);
           Resume 0 (Fulfilled (VString "same value"));
           Resume 1 (Fulfilled (VString "same value")) ] init = Some w ∧
       controllers w = [] ∧
       trace w = [EvOnFulfilled 0 (VString "same value") false].
Proof. eexists. split; [vm_compute; reflexivity|vm_compute; done]. Qed.

(** ** Controllers and records *)

Lemma controller_of_alloc r w : controller_of r (alloc w) = controller_of r w.
Proof.
  unfold controller_of, alloc. simpl.
  destruct (decide (r < length (refs w))) as [Hlt|Hge].
  - by rewrite lookup_app_l.
  - rewrite (lookup_ge_None_2 (refs w)); [|lia].
    destruct (decide (r = length (refs w))) as [->|Hne].
    + rewrite lookup_app_r; [|lia]. by rewrite Nat.sub_diag.
    + rewrite lookup_ge_None_2; [done|]. rewrite length_app. simpl. lia.
Qed.

Lemma is_current_alloc_old r w :
  is_Some (controller_of r w) → is_current r (alloc w) = is_current r w.
Proof.
  intros [c Hc]. apply is_current_alloc. unfold controller_of in Hc.
  destruct (refs w !! r) eqn:E; [|done]. by eapply lookup_lt_Some.
Qed.

Lemma supersede_controllers p w :
  controllers (supersede p w) =
  match controller_of p w with
  | Some c => alter (abort VOnePromiseAbortError) c (controllers w)
  | None => controllers w
  end.
Proof.
  unfold supersede, controller_of.
  destruct (refs w !! p) as [x|]; [|done]. simpl.
  by destruct (abortController x).
Qed.

Lemma install_controllers r p onF onR w :
  controllers (install r p onF onR w) =
  match current w ≫= (λ prev, controller_of prev w) with
  | Some c => alter (abort VOnePromiseAbortError) c (controllers w)
  | None => controllers w
  end.
Proof.
  unfold install, bookkeeping. simpl.
  destruct (current w) as [prev|]; [|done]. simpl.
  change (controllers (supersede prev (set_current (Some r) w)) =
          match controller_of prev w with
          | Some c => alter (abort VOnePromiseAbortError) c (controllers w)
          | None => controllers w
          end).
  by rewrite supersede_controllers.
Qed.

Lemma Ctl_ext w w' :
  controllers w' = controllers w →
  (∀ r, controller_of r w' = controller_of r w) →
  (∀ r, is_current r w' = is_current r w) →
  Ctl w → Ctl w'.
Proof.
  intros Hc Ho Hi [H1 H2]. split.
  - intros r c. rewrite Hc, Ho, Hi. apply H1.
  - intros r r' c. rewrite !Ho. apply H2.
Qed.

Lemma alloc_Ctl w : Ctl w → Ctl (alloc w).
Proof.
  intros [H1 H2]. split.
  - intros r c. rewrite controller_of_alloc. intros Hc.
    rewrite is_current_alloc_old; [|by eexists]. by apply H1.
  - intros r r' c. rewrite !controller_of_alloc. apply H2.
Qed.

Lemma signal_Ctl cx w w' c : signal cx w = Some (w', c) → Ctl w → Ctl w'.
Proof.
  intros Hs HC. pose proof Hs as Hs'.
  destruct (signal_fields _ _ _ _ Hs) as (_ & _ & _ & _ & _ & Hi).
  unfold signal in Hs'. destruct (refs w !! cx) as [x|] eqn:E; [|done].
  destruct (abortController x) eqn:Ea.
  { injection Hs' as <- <-. done. }
  injection Hs' as <- <-. destruct HC as [H1 H2].
  assert (∀ r, controller_of r
      (set_refs <[cx:=mkPromiseRef (isCurrent x) (Some (length (controllers w)))]>
         (set_controllers (λ cs, cs ++
            [if negb (isCurrent x)
             then abort VOnePromiseAbortError (mkAbortController false None)
             else mkAbortController false None]) w)) =
      if decide (r = cx) then Some (length (controllers w)) else controller_of r w) as Ho.
  { intros r. unfold controller_of. simpl. case_decide as Hd.
    - subst r. rewrite list_lookup_insert_eq; [done|]. by eapply lookup_lt_Some.
    - by rewrite list_lookup_insert_ne. }
  split.
  - intros r c'. rewrite Ho, Hi. case_decide as Hd.
    + intros [= <-]. subst r. simpl.
      rewrite lookup_app_r; [|lia]. rewrite Nat.sub_diag. simpl.
      unfold is_current. rewrite E. by destruct (isCurrent x).
    + intros Hc. simpl. rewrite lookup_app_l; [by apply H1|].
      eapply lookup_lt_Some. by apply H1.
  - intros r r' c'. rewrite !Ho. repeat case_decide; subst; try done.
    + intros [= <-] Hc. apply H1 in Hc. apply lookup_lt_Some in Hc. lia.
    + intros Hc [= <-]. apply H1 in Hc. apply lookup_lt_Some in Hc. lia.
    + apply H2.
Qed.

Lemma install_Ctl r p onF onR w : Ctl w → Ctl (install r p onF onR w).
Proof.
  intros [H1 H2].
  destruct (install_fields r p onF onR w) as (_ & _ & _ & _ & _ & Hi).
  split.
  - intros r0 c. rewrite controller_of_install, install_controllers, Hi. intros Hc.
    destruct (current w) as [prev|] eqn:Hcur; simpl.
    + destruct (controller_of prev w) as [c0|] eqn:Hprev.
      * destruct (decide (r0 = prev)) as [->|Hne].
        -- assert (c0 = c) as -> by congruence.
           rewrite list_lookup_alter_eq, (H1 _ _ Hc).
           rewrite bool_decide_eq_true_2; [|done]. rewrite andb_false_r.
           by destruct (is_current prev w).
        -- rewrite list_lookup_alter_ne.
           ++ rewrite (H1 _ _ Hc), bool_decide_eq_false_2; [|congruence].
              by rewrite andb_true_r.
           ++ intros ->. apply Hne. by eapply H2.
      * rewrite (H1 _ _ Hc), bool_decide_eq_false_2; [by rewrite andb_true_r|].
        intros [= ->]. congruence.
    + rewrite (H1 _ _ Hc). by rewrite andb_true_r.
  - intros r0 r' c. rewrite !controller_of_install. apply H2.
Qed.

Lemma finally_Ctl r w : Ctl w → Ctl (finally r w).
Proof. unfold finally. destruct (is_current r w); [|done]. by apply Ctl_ext. Qed.

Lemma init_Ctl : Ctl init.
Proof. split; intros; done. Qed.

Lemma run_Ctl cb acts w w' : run cb acts w = Some w' → Inv w → Ctl w → Ctl w'.
Proof.
  intros Hrun HI.
  refine (proj2 (run_rel cb (λ w w', Ctl w → Ctl w')
    _ _ _ _ _ _ _ _ _ _ _ _ acts w w' Hrun HI)).
  - done.
  - auto.
  - intros w0 _. apply alloc_Ctl.
  - intros cx w0 w1 c _ Hs. by eapply signal_Ctl.
  - intros r p onF onR w0 _ _. apply install_Ctl.
  - intros r e onF onR w0 _ _. by apply Ctl_ext.
  - intros e w0 _. by apply Ctl_ext.
  - intros call o w0. by apply Ctl_ext.
  - intros call s w0. by apply Ctl_ext.
  - intros call f p w0 _ _ _ HC. apply finally_Ctl. revert HC. by apply Ctl_ext.
  - intros call o q w0 _. by apply Ctl_ext.
  - intros b q w0 _. destruct cb; by apply Ctl_ext.
Qed.

(** X1. In every state of every execution, the signal handed out for a
    record is aborted exactly when that record has been superseded, and then
    its reason is a [OnePromiseAbortError]; the signal of a record that was
    never superseded, settled or not, is not aborted and has no reason. *)
Theorem signal_aborted_iff_superseded cb acts w r c :
  run cb acts init = Some w → controller_of r w = Some c →
  ∃ ctl, controllers w !! c = Some ctl ∧
    aborted ctl = negb (is_current r w) ∧
    reason ctl = (if is_current r w then None else Some VOnePromiseAbortError).
Proof.
  intros Hrun Hc.
  pose proof (run_Ctl _ _ _ _ Hrun init_Inv init_Ctl) as [H1 _].
  exists (ctl_state (is_current r w)). split; [by apply H1|].
  by destruct (is_current r w).
Qed.

Lemma signal_aborted_iff_superseded_witness :
  ∃ ctl, controllers (world_after None signal_then_superseded) !! 0 = Some ctl ∧
         aborted ctl = true ∧ reason ctl = Some VOnePromiseAbortError.
Proof.
  destruct (signal_aborted_iff_superseded None signal_then_superseded
              (world_after None signal_then_superseded) 0 0)
    as (ctl & H1 & H2 & H3).
  - vm_compute. reflexivity.
  - vm_compute. reflexivity.
  - exists ctl. split; [exact H1|]. split; [exact H2|exact H3].
Defined.

(** X2. Two records never share a controller: the signal one operation
    was given is never the signal of another, so superseding one operation
    cannot abort the signal of any other. *)
Theorem controllers_are_not_shared cb acts w r r' c :
  run cb acts init = Some w →
  controller_of r w = Some c → controller_of r' w = Some c → r = r'.
Proof.
  intros Hrun.
  pose proof (run_Ctl _ _ _ _ Hrun init_Inv init_Ctl) as [_ H2]. apply H2.
Qed.

Lemma controllers_are_not_shared_witness :
  controller_of 0 (world_after None two_signals) = Some 0 ∧
  controller_of 1 (world_after None two_signals) = Some 1 ∧
  (0 = 0)%nat.
Proof.
  split; [vm_compute; reflexivity|]. split; [vm_compute; reflexivity|].
  apply (controllers_are_not_shared None two_signals
           (world_after None two_signals) 0 0 0).
  - vm_compute. reflexivity.
  - vm_compute. reflexivity.
  - vm_compute. reflexivity.
Defined.

Lemma run_job_call_next a onF onR w :
  run_job (call_next a onF onR) w = (next a onF onR w).1.
Proof. unfold run_job, call_next. by rewrite invoke_CallNext. Qed.

(** X3. A call of "next" that reaches its [await] aborts, before it
    returns, the signal of the record that was in the slot, with a
    [OnePromiseAbortError] as reason; the record keeps that signal. *)
Theorem superseding_aborts_the_previous_signal cb pre w prev c b onF onR :
  run cb pre init = Some w →
  current w = Some prev → controller_of prev w = Some c →
  throws_sync b w = false →
  let w1 := (next b onF onR w).1 in
  controllers w1 !! c = Some (mkAbortController true (Some VOnePromiseAbortError)) ∧
  controller_of prev w1 = Some c ∧
  is_current prev w1 = false.
Proof.
  intros Hrun Hcur Hc Hb w1.
  pose proof (run_Inv _ _ _ _ Hrun init_Inv) as HI.
  pose proof (run_Ctl _ _ _ _ Hrun init_Inv init_Ctl) as HC.
  assert (run cb [Turn (call_next b onF onR)] w = Some w1) as Hstep
    by (simpl; by rewrite run_job_call_next).
  pose proof (run_Ctl _ _ _ _ Hstep HI HC) as [H1 _].
  pose proof (run_controller_stable _ _ _ _ _ _ Hstep HI Hc) as Hc1.
  assert (is_current prev w1 = false) as Hsup.
  { destruct (after_getter_Inv b w HI) as (HI' & Hfree & Hpref).
    destruct (next_started b onF onR w Hb) as [pb Hnext].
    unfold w1. rewrite Hnext. simpl.
    destruct (inv_slot _ HI _ Hcur) as (_ & call & f & p & Hf & <- & Hp).
    eapply install_supersedes; [done| |done].
    by apply (prefix_lookup_Some (frames w)). }
  split; [|done]. rewrite (H1 _ _ Hc1), Hsup. done.
Qed.

Lemma superseding_aborts_the_previous_signal_witness :
  let w := (next (Function (getter_with_signal 0)) None None init).1 in
  controllers w !! 0 = Some (mkAbortController false None) ∧
  controllers (next (Plain VNull) None None w).1 !! 0
    = Some (mkAbortController true (Some VOnePromiseAbortError)).
Proof.
  intros w. split; [vm_compute; reflexivity|].
  apply (superseding_aborts_the_previous_signal None
    [Turn (call_next (Function (getter_with_signal 0)) None None)]
    w 0 0 (Plain VNull) None None).
  - vm_compute. reflexivity.
  - vm_compute. reflexivity.
  - vm_compute. reflexivity.
  - reflexivity.
Defined.

(** X4. [isCurrent] is written once: a record that has been superseded is
    not current again in any later state, whatever happens in between. *)
Theorem superseded_records_stay_superseded cb pre w acts w' r :
  run cb pre init = Some w → run cb acts w = Some w' →
  r < length (refs w) → is_current r w = false →
  r < length (refs w') ∧ is_current r w' = false.
Proof.
  intros Hpre Hrun Hr Hcur.
  pose proof (run_Inv _ _ _ _ Hpre init_Inv) as HI.
  destruct (run_superseded_stable _ _ _ _ Hrun HI) as [Hlen Hstab].
  split; [lia|]. by apply Hstab.
Qed.

Lemma superseded_records_stay_superseded_witness :
  let w := world_after None signal_then_superseded in
  ∃ w', run None [Resume 1 (Fulfilled VNull); Turn (call_next (Plain VNull) None None)] w
        = Some w' ∧ is_current 0 w' = false.
Proof.
  intros w. eexists. split; [vm_compute; reflexivity|].
  apply (superseded_records_stay_superseded None signal_then_superseded w
           [Resume 1 (Fulfilled VNull); Turn (call_next (Plain VNull) None None)] _ 0).
  - vm_compute. reflexivity.
  - vm_compute. reflexivity.
  - vm_compute. lia.
  - vm_compute. reflexivity.
Defined.

Lemma notified_completion_event tr call f o cur :
  notified (tr ++ completion_event call f o cur) = notified tr.
Proof.
  unfold completion_event.
  destruct o; [destruct (onFulfilled f)|destruct (onRejected f)];
    rewrite ?app_nil_r; try done; rewrite notified_app; by rewrite app_nil_r.
Qed.

(** X5. [onChangeIsPending] is never called synchronously: neither a
    turn of user code (calls of "next" included) nor the continuation of
    "next" after an [await] calls it; only a microtask of its own does. *)
Theorem notifications_are_deferred cb pre w a w' :
  run cb pre init = Some w → step cb a w = Some w' → a ≠ Tick →
  notified (trace w') = notified (trace w).
Proof.
  intros Hpre Hstep Ha.
  pose proof (run_Inv _ _ _ _ Hpre init_Inv) as HI.
  destruct a as [s| |call o]; [|done|]; simpl in Hstep.
  - injection Hstep as <-. unfold run_job.
    pose proof (invoke_trace s w HI) as Ht.
    destruct (invoke s w) as [w1 [v|e]]; simpl in *; rewrite Ht; [done|].
    rewrite notified_app. by rewrite app_nil_r.
  - unfold resume in Hstep.
    destruct (frames w !! call) as [f|] eqn:Hf; [|done].
    destruct (pc f) as [|promise|result|] eqn:Hpc; try done.
    + destruct (settles promise o) eqn:Hs; [|done].
      destruct (resume_trace call f promise o w HI Hf Hpc Hs) as (w1 & Hres & Htr).
      unfold resume in Hres. rewrite Hf, Hpc, Hs in Hres.
      rewrite Hstep in Hres. injection Hres as <-.
      rewrite Htr. apply notified_completion_event.
    + destruct (settles result o); [|done]. by injection Hstep as <-.
Qed.

Lemma notifications_are_deferred_witness :
  ∃ w', step (Some recorder) (Turn (call_next (Plain VNull) None None)) init = Some w' ∧
        microtasks w' = [MNotify true] ∧ notified (trace w') = [].
Proof.
  eexists. split; [vm_compute; reflexivity|]. split; [vm_compute; reflexivity|].
  apply (notifications_are_deferred (Some recorder) [] init
           (Turn (call_next (Plain VNull) None None))).
  - reflexivity.
  - vm_compute. reflexivity.
  - discriminate.
Defined.

(** ** Results of "next" *)

Lemma settles_plain p o : settles p o = true → is_plain p = true → o = Fulfilled p.
Proof.
  destruct p; simpl; try done; destruct o; try done;
    by intros ->%bool_decide_eq_true.
Qed.

Lemma finish_at call o w f :
  frames w !! call = Some f →
  pc <$> frames (finish call o w) !! call = Some (Settled o).
Proof. intros Hf. unfold finish. by apply (set_pc_at call (Settled o) w f). Qed.

(** X6. When the callback for the outcome is absent, the promise returned
    by "next" settles exactly as the awaited operation did (the other
    callback, if supplied, is not run), and a source that is not promise-like
    can only be fulfilled with itself: [next(x)] yields [x], a rejection
    yields the same reason. *)
Theorem settlement_passes_through_without_callback cb pre w call f p o :
  run cb pre init = Some w →
  frames w !! call = Some f → pc f = AwaitPromise p → settles p o = true →
  (handler f o).1 = None →
  ∃ w1, resume call o w = Some w1 ∧
    pc <$> frames w1 !! call = Some (Settled o) ∧
    trace w1 = trace w ∧
    last (microtasks w1) = Some (MDeliver call o) ∧
    (is_plain p = true → o = Fulfilled p).
Proof.
  intros Hrun Hf Hpc Hs Hh.
  pose proof (run_Inv _ _ _ _ Hrun init_Inv) as HI.
  destruct (resume_trace call f p o w HI Hf Hpc Hs) as (w1 & Hres & Htr).
  assert (completion_event call f o (is_current (thisRef f) w) = []) as Hev.
  { unfold completion_event. destruct o; simpl in Hh; by rewrite Hh. }
  destruct (callback_world_Inv call f p o w HI Hf Hpc) as (_ & f' & Hf' & _).
  unfold callback_world in Hf'. rewrite Hev in Hf'.
  exists w1. split; [done|].
  assert (w1 = finish call o (finally (thisRef f) (set_pc call Running w))) as ->.
  { unfold resume in Hres. rewrite Hf, Hpc, Hs in Hres. injection Hres as <-.
    destruct o; simpl in Hh; by rewrite Hh. }
  split_and!.
  - by eapply finish_at.
  - by rewrite Htr, Hev, app_nil_r.
  - unfold finish. simpl. by rewrite last_snoc.
  - by apply settles_plain.
Qed.

Lemma settlement_passes_through_without_callback_witness :
  let w := (next (Plain (VString "value")) None None init).1 in
  ∃ w1, resume 0 (Fulfilled (VString "value")) w = Some w1 ∧
        pc <$> frames w1 !! 0 = Some (Settled (Fulfilled (VString "value"))).
Proof.
  intros w.
  destruct (settlement_passes_through_without_callback None
    [Turn (call_next (Plain (VString "value")) None None)] w 0
    (mkFrame 0 None None (AwaitPromise (VString "value")))
    (VString "value") (Fulfilled (VString "value")))
    as (w1 & H1 & H2 & _).
  - vm_compute. reflexivity.
  - vm_compute. reflexivity.
  - reflexivity.
  - reflexivity.
  - reflexivity.
  - exists w1. split; [exact H1|exact H2].
Defined.

(** X7. As with [Promise.then], what a completion callback returns
    becomes the result of "next": the invocation waits for the returned value
    and its promise settles exactly as that value does, running no further
    callback; a returned value that is not promise-like fulfils it with that
    value.  So [onRejected] turns a failed operation into a fulfilled
    result. *)
Theorem callback_result_settles_next cb pre w call f p o cbk arg result :
  run cb pre init = Some w →
  frames w !! call = Some f → pc f = AwaitPromise p → settles p o = true →
  handler f o = (Some cbk, arg) →
  (invoke (cbk arg (is_current (thisRef f) w)) (callback_world call f o w)).2
    = Normal result →
  ∃ w1, resume call o w = Some w1 ∧
    pc <$> frames w1 !! call = Some (AwaitCallback result) ∧
    (is_plain result = true → settles result (Fulfilled result) = true) ∧
    ∀ o', settles result o' = true →
      (is_plain result = true → o' = Fulfilled result) ∧
      ∃ w2, resume call o' w1 = Some w2 ∧
            pc <$> frames w2 !! call = Some (Settled o') ∧
            trace w2 = trace w1 ∧
            microtasks w2 = microtasks w1 ++ [MDeliver call o'].
Proof.
  intros Hrun Hf Hpc Hs Hh Hret.
  pose proof (run_Inv _ _ _ _ Hrun init_Inv) as HI.
  pose proof (resume_callback _ _ _ _ _ _ _ Hf Hpc Hs Hh) as Hres.
  destruct (callback_world_Inv call f p o w HI Hf Hpc) as (HIc & f' & Hf' & _ & Hpc').
  pose proof (invoke_frames (cbk arg (is_current (thisRef f) w)) _ HIc) as Hpre.
  destruct (invoke (cbk arg (is_current (thisRef f) w)) (callback_world call f o w))
    as [w' c] eqn:Hinv.
  simpl in Hret, Hpre. subst c.
  assert (frames w' !! call = Some f') as Hf1
    by (by apply (prefix_lookup_Some (frames (callback_world call f o w)))).
  eexists. split; [exact Hres|]. split_and!.
  - by eapply set_pc_at.
  - destruct result; simpl; try done; by rewrite bool_decide_eq_true_2.
  - intros o' Hs'. split; [by apply settles_plain|].
    unfold resume.
    assert (frames (set_pc call (AwaitCallback result) w') !! call =
            Some (mkFrame (thisRef f') (onFulfilled f') (onRejected f')
                    (AwaitCallback result))) as Hlk.
    { rewrite set_pc_lookup, decide_True; [|done]. by rewrite Hf1. }
    rewrite Hlk. simpl. rewrite Hs'. eexists. split; [done|].
    split; [by eapply finish_at|done].
Qed.

Lemma callback_result_settles_next_witness :
  let recover : callback := λ _ _, Return (VString "value") in
  let w := (next (Plain (VPromiseLike 0)) None (Some recover) init).1 in
  ∃ w1 w2, resume 0 (Rejected VNull) w = Some w1 ∧
           resume 0 (Fulfilled (VString "value")) w1 = Some w2 ∧
           pc <$> frames w2 !! 0 = Some (Settled (Fulfilled (VString "value"))).
Proof.
  intros recover w.
  destruct (callback_result_settles_next None
    [Turn (call_next (Plain (VPromiseLike 0)) None (Some recover))] w 0
    (mkFrame 0 None (Some recover) (AwaitPromise (VPromiseLike 0)))
    (VPromiseLike 0) (Rejected VNull) recover VNull (VString "value"))
    as (w1 & H1 & _ & _ & H2).
  - vm_compute. reflexivity.
  - vm_compute. reflexivity.
  - reflexivity.
  - reflexivity.
  - reflexivity.
  - vm_compute. reflexivity.
  - destruct (H2 (Fulfilled (VString "value")) eq_refl) as (_ & w2 & H3 & H4 & _).
    exists w1, w2. split; [exact H1|]. split; [exact H3|exact H4].
Defined.

(** ** Calls inside a getter, superseded settlements *)

(** X8. The getter runs before the bookkeeping of its own call, so the
    enclosing call overtakes whatever calls of "next" its getter made.  When
    a call whose getter returns comes back, its own record is in the slot and
    current, every other invocation that is waiting for its operation (those
    begun inside the getter included) is superseded, and the whole call has
    queued one [true] if the tracker was not pending before and nothing
    otherwise, however many calls the getter made. *)
Theorem call_inside_getter_is_overtaken cb pre w g onF onR :
  run cb pre init = Some w →
  throws_sync (Function g) w = false →
  let n := length (refs w) in
  let w1 := (next (Function g) onF onR w).1 in
  let call := (next (Function g) onF onR w).2 in
  current w1 = Some n ∧ is_current n w1 = true ∧
  thisRef <$> frames w1 !! call = Some n ∧
  frames w `prefix_of` frames w1 ∧
  (∀ c f p, c ≠ call → frames w1 !! c = Some f → pc f = AwaitPromise p →
     is_current (thisRef f) w1 = false) ∧
  queued (microtasks w1) = queued (microtasks w) ++ (if is_pending w then [] else [true]).
Proof.
  intros Hrun Hg n w1 call.
  pose proof (run_Inv _ _ _ _ Hrun init_Inv) as HI.
  pose proof (next_Inv (Function g) onF onR w HI) as HI1. fold w1 in HI1.
  destruct (next_pending (Function g) onF onR w HI Hg) as (Hc & Hq & _).
  fold w1 n in Hc, Hq.
  destruct (after_getter_Inv (Function g) w HI) as (_ & _ & Hpre).
  destruct (next_started (Function g) onF onR w Hg) as [p0 Hnext].
  destruct (install_fields n p0 onF onR (after_getter (Function g) w)) as (_ & Hfr & _).
  assert (frames w1 !! call = Some (mkFrame n onF onR (AwaitPromise p0))) as Hlk.
  { unfold w1, call. rewrite Hnext. cbn [fst snd]. fold n. rewrite Hfr.
    rewrite lookup_app_r; [|lia]. by rewrite Nat.sub_diag. }
  split_and!.
  - done.
  - by apply (inv_slot _ HI1).
  - by rewrite Hlk.
  - unfold w1. rewrite Hnext. cbn [fst]. fold n. rewrite Hfr.
    by apply prefix_app_r.
  - intros c f p Hne Hf Hp.
    destruct (is_current (thisRef f) w1) eqn:Hcur; [|done].
    pose proof (inv_awaiting _ HI1 _ _ _ Hf Hp Hcur) as Hslot.
    rewrite Hc in Hslot. injection Hslot as Hn.
    destruct Hne.
    eapply (NoDup_lookup _ c call n (inv_nodup _ HI1)); rewrite list_lookup_fmap.
    + rewrite Hf. simpl. by rewrite Hn.
    + by rewrite Hlk.
  - done.
Qed.

Lemma call_inside_getter_is_overtaken_witness :
  let w1 := (next (Function (getter_calling_next VNull None None (VPromiseLike 0)))
               None None one_waiting).1 in
  current w1 = Some 1 ∧ is_current 1 w1 = true ∧ is_current 2 w1 = false ∧
  queued (microtasks w1) = [true].
Proof.
  intros w1.
  destruct (call_inside_getter_is_overtaken None
    [Turn (call_next (Plain (VPromiseLike 0)) (Some ignore) None)] one_waiting
    (getter_calling_next VNull None None (VPromiseLike 0)) None None)
    as (H1 & H2 & _ & _ & H3 & H4).
  - vm_compute. reflexivity.
  - vm_compute. reflexivity.
  - split; [exact H1|]. split; [exact H2|]. split; [|exact H4].
    apply (H3 1 (mkFrame 2 None None (AwaitPromise VNull)) VNull).
    + vm_compute. discriminate.
    + vm_compute. reflexivity.
    + reflexivity.
Defined.

(** X9. When the operation of an invocation settles and its record is not
    the one in the slot, it has been superseded: its completion callback gets
    [isCurrent = false], and before that callback runs nothing has been done
    to the slot, to the microtask queue or to any record.  The settlement of
    an overtaken operation never clears the slot of a newer one and schedules
    no notification. *)
Theorem overtaken_settlement_leaves_the_slot cb pre w call f p o :
  run cb pre init = Some w →
  frames w !! call = Some f → pc f = AwaitPromise p →
  current w ≠ Some (thisRef f) →
  let w_cb := callback_world call f o w in
  is_current (thisRef f) w = false ∧
  current w_cb = current w ∧ microtasks w_cb = microtasks w ∧
  refs w_cb = refs w ∧ controllers w_cb = controllers w ∧
  trace w_cb = trace w ++ completion_event call f o false.
Proof.
  intros Hrun Hf Hpc Hslot w_cb.
  pose proof (run_Inv _ _ _ _ Hrun init_Inv) as HI.
  assert (is_current (thisRef f) w = false) as Hcur.
  { destruct (is_current (thisRef f) w) eqn:E; [|done].
    destruct Hslot. by eapply (inv_awaiting _ HI). }
  split; [done|]. unfold w_cb, callback_world, finally.
  change (is_current (thisRef f) (set_pc call Running w))
    with (is_current (thisRef f) w).
  rewrite Hcur.
  destruct (completion_event call f o false) as [|ev l] eqn:Hev; simpl.
  - by rewrite app_nil_r.
  - split_and!; try done. f_equal.
    unfold completion_event in Hev.
    destruct o; [destruct (onFulfilled f)|destruct (onRejected f)]; congruence.
Qed.

Lemma overtaken_settlement_leaves_the_slot_witness :
  let w := (next (Plain (VPromiseLike 1)) None None one_waiting).1 in
  let w_cb := callback_world 0
                (mkFrame 0 (Some ignore) None (AwaitPromise (VPromiseLike 0)))
                (Fulfilled VNull) w in
  current w_cb = Some 1 ∧ microtasks w_cb = [MNotify true] ∧
  trace w_cb = [EvOnFulfilled 0 VNull false].
Proof.
  intros w w_cb.
  destruct (overtaken_settlement_leaves_the_slot None
    [ Turn (call_next (Plain (VPromiseLike 0)) (Some ignore) None);
      Turn (call_next (Plain (VPromiseLike 1)) None None) ] w 0
    (mkFrame 0 (Some ignore) None (AwaitPromise (VPromiseLike 0)))
    (VPromiseLike 0) (Fulfilled VNull)) as (_ & H1 & H2 & _ & _ & H3).
  - vm_compute. reflexivity.
  - vm_compute. reflexivity.
  - reflexivity.
  - vm_compute. discriminate.
  - split; [exact H1|]. split; [exact H2|exact H3].
Defined.

(** ** Code that never asks for a signal *)

Lemma install_NoSignal r p onF onR w :
  no_signal_callback onF → no_signal_callback onR →
  NoSignal w → NoSignal (install r p onF onR w).
Proof.
  intros HF HR [H1 H2 H3].
  destruct (install_fields r p onF onR w) as (_ & Hf & _).
  split.
  - rewrite install_controllers, H1. by destruct (current w ≫= _).
  - intros r0. by rewrite controller_of_install.
  - rewrite Hf. intros f [Hin| ->%list_elem_of_singleton]%elem_of_app; [by apply H3|done].
Qed.

Lemma throw_NoSignal r e onF onR w :
  no_signal_callback onF → no_signal_callback onR →
  NoSignal w → NoSignal (throw_from_next r onF onR e w).1.
Proof.
  intros HF HR [H1 H2 H3]. split; simpl; [done|done|].
  intros f [Hin| ->%list_elem_of_singleton]%elem_of_app; [by apply H3|done].
Qed.

Lemma alloc_NoSignal w : NoSignal w → NoSignal (alloc w).
Proof.
  intros [H1 H2 H3]. split; [done| |done].
  intros r. by rewrite controller_of_alloc.
Qed.

Lemma invoke_NoSignal s : no_signal s → ∀ w, NoSignal w → NoSignal (invoke s w).1.
Proof.
  induction s using script_jsvalue_ind with
    (P0 := λ a, match a with
                | Plain _ => True
                | Function g => ∀ cx, no_signal (g cx)
                end →
       ∀ onF onR w, no_signal_callback onF → no_signal_callback onR →
         NoSignal w → NoSignal (next a onF onR w).1).
  - done.
  - done.
  - done.
  - intros (Ha & HF & HR & Hk) w HN. rewrite invoke_CallNext.
    apply IHs0; [done|]. by apply IHs.
  - intros _ onF onR w HF HR HN. rewrite next_Plain.
    by apply (install_NoSignal _ _ _ _ _ HF HR), alloc_NoSignal.
  - intros Hg onF onR w HF HR HN. rewrite next_Function. simpl.
    pose proof (H (length (refs w)) (Hg _) _ (alloc_NoSignal _ HN)) as HN'.
    destruct (invoke (getter (length (refs w))) (alloc w)) as [w' [p|e]]; simpl in *.
    + by apply (install_NoSignal _ _ _ _ _ HF HR).
    + by apply throw_NoSignal.
Qed.

Lemma NoSignal_ext w w' :
  controllers w' = controllers w → refs w' = refs w →
  (∀ f', f' ∈ frames w' →
     ∃ f, f ∈ frames w ∧ onFulfilled f' = onFulfilled f ∧ onRejected f' = onRejected f) →
  NoSignal w → NoSignal w'.
Proof.
  intros Hc Hr Hf [H1 H2 H3]. split.
  - by rewrite Hc.
  - intros r. unfold controller_of. rewrite Hr. apply H2.
  - intros f' Hin. destruct (Hf f' Hin) as (f & Hin' & -> & ->). by apply H3.
Qed.

Lemma set_pc_callbacks call s w f' :
  f' ∈ frames (set_pc call s w) →
  ∃ f, f ∈ frames w ∧ onFulfilled f' = onFulfilled f ∧ onRejected f' = onRejected f.
Proof.
  intros (i & Hi)%list_elem_of_lookup_1. rewrite set_pc_lookup in Hi.
  case_decide as Hd.
  - destruct (frames w !! call) as [f|] eqn:E; [|done]. injection Hi as <-.
    exists f. split; [by eapply list_elem_of_lookup_2|done].
  - exists f'. split; [by eapply list_elem_of_lookup_2|done].
Qed.

Lemma set_pc_NoSignal call s w : NoSignal w → NoSignal (set_pc call s w).
Proof. apply NoSignal_ext; [done|done|]. apply set_pc_callbacks. Qed.

Lemma same_frames_NoSignal w w' :
  controllers w' = controllers w → refs w' = refs w → frames w' = frames w →
  NoSignal w → NoSignal w'.
Proof.
  intros Hc Hr Hf. apply NoSignal_ext; [done|done|].
  intros f' Hin. exists f'. by rewrite <- Hf.
Qed.

Lemma finish_NoSignal call o w : NoSignal w → NoSignal (finish call o w).
Proof.
  intros HN. unfold finish.
  by apply (same_frames_NoSignal (set_pc call (Settled o) w)), set_pc_NoSignal.
Qed.

Lemma call_back_NoSignal call ev cb arg cur w :
  no_signal (cb arg cur) → NoSignal w → NoSignal (call_back call ev cb arg cur w).
Proof.
  intros Hcb HN. unfold call_back.
  pose proof (invoke_NoSignal _ Hcb (log ev w)
                (same_frames_NoSignal w (log ev w) eq_refl eq_refl eq_refl HN)) as HN'.
  destruct (invoke (cb arg cur) (log ev w)) as [w' [v|e]]; simpl in *.
  - by apply set_pc_NoSignal.
  - by apply finish_NoSignal.
Qed.

Lemma resume_NoSignal call o w w' :
  resume call o w = Some w' → NoSignal w → NoSignal w'.
Proof.
  unfold resume. intros Hres HN.
  destruct (frames w !! call) as [f|] eqn:Hf; [|done].
  pose proof (no_signal_frames _ HN f (list_elem_of_lookup_2 _ _ _ Hf)) as [HF HR].
  destruct (pc f) as [|promise|result|]; try done.
  - destruct (settles promise o); [|done]. injection Hres as <-.
    assert (NoSignal (finally (thisRef f) (set_pc call Running w))) as HN1.
    { unfold finally. destruct (is_current _ _).
      - by apply (same_frames_NoSignal (set_pc call Running w)), set_pc_NoSignal.
      - by apply set_pc_NoSignal. }
    destruct o as [v|e].
    + destruct (onFulfilled f) as [cb|]; [|by apply finish_NoSignal].
      apply call_back_NoSignal; [apply HF|done].
    + destruct (onRejected f) as [cb|]; [|by apply finish_NoSignal].
      apply call_back_NoSignal; [apply HR|done].
  - destruct (settles result o); [|done]. injection Hres as <-.
    by apply finish_NoSignal.
Qed.

Lemma run_job_NoSignal s w : no_signal s → NoSignal w → NoSignal (run_job s w).
Proof.
  intros Hs HN. unfold run_job. pose proof (invoke_NoSignal s Hs w HN) as HN'.
  destruct (invoke s w) as [w' [v|e]]; simpl in *; [done|].
  by apply (same_frames_NoSignal w').
Qed.

(** X11. A controller is only ever created on request: if no user code
    (turns, getters, completion callbacks, [onChangeIsPending]) reads
    [cx.signal], then in every state no [AbortController] exists and no
    record has one, however many calls overtake one another. *)
Theorem no_controller_without_signal_request cb acts w :
  (∀ f b, cb = Some f → no_signal (f b)) →
  Forall no_signal_action acts →
  run cb acts init = Some w →
  controllers w = [] ∧ ∀ r, controller_of r w = None.
Proof.
  intros Hcb Hacts Hrun.
  assert (NoSignal init) as HN by (split; [done|done|by intros f ?%elem_of_nil]).
  revert Hrun HN. generalize init as w0.
  induction Hacts as [|a acts Ha _ IH]; intros w0 Hrun HN; simpl in Hrun.
  - injection Hrun as <-. split; [apply (no_controllers _ HN)|apply (no_controller_of _ HN)].
  - destruct (step cb a w0) as [w1|] eqn:Hs; [|done].
    apply (IH w1 Hrun).
    destruct a as [s| |call o]; simpl in Hs.
    + injection Hs as <-. by apply run_job_NoSignal.
    + unfold tick in Hs. destruct (microtasks w0) as [|[b|call o] q]; [done| |];
        injection Hs as <-; simpl.
      * destruct cb as [f|].
        -- apply run_job_NoSignal; [by apply Hcb|].
           by apply (same_frames_NoSignal w0).
        -- by apply (same_frames_NoSignal w0).
      * by apply (same_frames_NoSignal w0).
    + by eapply resume_NoSignal.
Qed.

Lemma no_controller_without_signal_request_witness :
  controllers (world_after (Some recorder) (burst_a_first 0 1 (Rejected VNull) (Fulfilled VNull)))
  = [].
Proof.
  apply (no_controller_without_signal_request (Some recorder)
           (burst_a_first 0 1 (Rejected VNull) (Fulfilled VNull))).
  - intros f b [= <-]. exact I.
  - repeat constructor.
  - vm_compute. reflexivity.
Defined.

(** ** Completion callbacks run at most once *)

Lemma flags_of_app call tr e :
  flags_of call (tr ++ [e]) =
  flags_of call tr ++
  match e with
  | EvOnFulfilled c _ cur | EvOnRejected c _ cur =>
    if decide (c = call) then [cur] else []
  | _ => []
  end.
Proof.
  unfold flags_of. rewrite omap_app. f_equal.
  destruct e; simpl; try done; by case_decide.
Qed.

Lemma Once_ext w w' :
  trace w' = trace w → (∀ call, unsettled call w' → unsettled call w) →
  Once w → Once w'.
Proof.
  intros Ht Hu [H1 H2]. split; rewrite Ht; [done|].
  intros call Hc. by apply H2, Hu.
Qed.

Lemma unsettled_prefix w w' call :
  frames w `prefix_of` frames w' → unsettled call w' → unsettled call w.
Proof.
  intros Hpre. unfold unsettled.
  destruct (frames w !! call) as [f|] eqn:E; [|done].
  by rewrite (prefix_lookup_Some _ _ _ _ E Hpre).
Qed.

Lemma unsettled_set_pc call s w c :
  (∀ p, s ≠ AwaitPromise p) → is_Some (frames w !! call) →
  unsettled c (set_pc call s w) → unsettled c w ∧ c ≠ call.
Proof.
  intros Hs [f Hf]. unfold unsettled. rewrite set_pc_lookup.
  case_decide as Hd.
  - rewrite Hf. simpl. destruct s; try done. by destruct (Hs promise).
  - done.
Qed.

Lemma invoke_Once s w : Inv w → Once w → Once (invoke s w).1.
Proof.
  intros HI. apply Once_ext; [by apply invoke_trace|].
  intros call. apply unsettled_prefix. by apply invoke_frames.
Qed.

Lemma log_Once e w :
  (∀ c v cur, e ≠ EvOnFulfilled c v cur) → (∀ c v cur, e ≠ EvOnRejected c v cur) →
  Once w → Once (log e w).
Proof.
  intros He1 He2 [H1 H2]. split; simpl; intros call; rewrite flags_of_app.
  - destruct e; rewrite ?app_nil_r; try done; [by destruct (He1 call0 v cur)|
      by destruct (He2 call0 e cur)].
  - intros Hu. destruct e; rewrite ?app_nil_r; try (by apply H2);
      [by destruct (He1 call0 v cur)|by destruct (He2 call0 e cur)].
Qed.

Lemma run_job_Once s w : Inv w → Once w → Once (run_job s w).
Proof.
  intros HI HO. unfold run_job. pose proof (invoke_Once s w HI HO) as HO'.
  destruct (invoke s w) as [w' [v|e]]; simpl in *; [done|]. by apply log_Once.
Qed.

Lemma finish_Once call o w :
  is_Some (frames w !! call) → Once w → Once (finish call o w).
Proof.
  intros Hf. apply Once_ext; [done|].
  intros c Hu. by apply (unsettled_set_pc call (Settled o) w c).
Qed.

Lemma call_back_Once call f ev cb arg cur w :
  Inv w → frames w !! call = Some f → pc f = Running →
  (ev = EvOnFulfilled call arg cur ∨ ev = EvOnRejected call arg cur) →
  Once w → flags_of call (trace w) = [] →
  Once (call_back call ev cb arg cur w).
Proof.
  intros HI Hf Hpc Hev [H1 H2] Hnil. unfold call_back.
  assert (Once (log ev w)) as HO1.
  { split; simpl; intros c; rewrite flags_of_app.
    - destruct Hev as [-> | ->]; (case_decide as Hd;
        [subst c; by rewrite Hnil|rewrite app_nil_r; apply H1]).
    - intros Hu. destruct Hev as [-> | ->]; (case_decide as Hd;
        [subst c; unfold unsettled in Hu; simpl in Hu; rewrite Hf, Hpc in Hu; done|
         rewrite app_nil_r; by apply H2]). }
  pose proof (log_Inv ev w HI) as HI1.
  pose proof (invoke_Once (cb arg cur) _ HI1 HO1) as HO2.
  pose proof (invoke_frames (cb arg cur) _ HI1) as Hpre.
  assert (is_Some (frames (invoke (cb arg cur) (log ev w)).1 !! call)) as Hsome.
  { exists f. by apply (prefix_lookup_Some (frames (log ev w))). }
  destruct (invoke (cb arg cur) (log ev w)) as [w' [v|e]]; simpl in *.
  - revert HO2. apply Once_ext; [done|].
    intros c Hu. by apply (unsettled_set_pc call (AwaitCallback v) w' c).
  - by apply finish_Once.
Qed.

Lemma resume_Once call o w w' :
  resume call o w = Some w' → Inv w → Once w → Once w'.
Proof.
  unfold resume. intros Hres HI HO.
  destruct (frames w !! call) as [f|] eqn:Hf; [|done].
  destruct (pc f) as [|promise|result|] eqn:Hpc; try done.
  - destruct (settles promise o); [|done]. injection Hres as <-.
    pose proof (wake_Inv _ _ _ _ HI Hf Hpc) as HI1.
    assert (flags_of call (trace w) = []) as Hnil.
    { apply (once_fresh _ HO). unfold unsettled. by rewrite Hf, Hpc. }
    set (w1 := finally (thisRef f) (set_pc call Running w)) in *.
    assert (frames w1 !! call =
            Some (mkFrame (thisRef f) (onFulfilled f) (onRejected f) Running)) as Hf1.
    { unfold w1, finally.
      assert (frames (set_pc call Running w) !! call =
              Some (mkFrame (thisRef f) (onFulfilled f) (onRejected f) Running)) as Hx.
      { rewrite set_pc_lookup. rewrite decide_True; [|done]. by rewrite Hf. }
      by destruct (is_current _ _). }
    assert (trace w1 = trace w) as Ht1 by (unfold w1; by rewrite finally_trace).
    assert (Once w1) as HO1.
    { revert HO. apply Once_ext; [done|]. intros c Hu.
      assert (unsettled c (set_pc call Running w)) as Hu'.
      { unfold unsettled in *. unfold w1, finally in Hu.
        by destruct (is_current _ _). }
      by apply (unsettled_set_pc call Running w c). }
    destruct o as [v|e].
    + destruct (onFulfilled f) as [cb|].
      * eapply call_back_Once; try done; [by left|by rewrite Ht1].
      * by apply finish_Once.
    + destruct (onRejected f) as [cb|].
      * eapply call_back_Once; try done; [by right|by rewrite Ht1].
      * by apply finish_Once.
  - destruct (settles result o); [|done]. injection Hres as <-.
    by apply finish_Once.
Qed.

Lemma step_Once cb a w w' : step cb a w = Some w' → Inv w → Once w → Once w'.
Proof.
  destruct a as [s| |call o]; simpl.
  - intros [= <-]. apply run_job_Once.
  - unfold tick. destruct (microtasks w) as [|[b|call o] q]; [done| |];
      intros [= <-] HI HO; simpl.
    + assert (Once (set_microtasks q w)) as HO0 by (by revert HO; apply Once_ext).
      destruct cb as [f|]; [|done].
      apply run_job_Once; [by apply log_Inv, set_microtasks_Inv|].
      by apply log_Once.
    + apply log_Once; [done|done|]. by revert HO; apply Once_ext.
  - apply resume_Once.
Qed.

Lemma init_Once : Once init.
Proof. split; simpl; [intros; lia|done]. Qed.

(** X12. In every execution each invocation of "next" runs at most one
    completion callback, at most once: [onFulfilled] and [onRejected] are
    never both called for the same call, neither is called twice, and none
    is called while the operation is still awaited. *)
Theorem completion_callback_runs_at_most_once cb acts w call :
  run cb acts init = Some w →
  length (flags_of call (trace w)) ≤ 1 ∧
  (unsettled call w → flags_of call (trace w) = []).
Proof.
  intros Hrun.
  assert (Inv w ∧ Once w) as [_ [H1 H2]]; [|split; [apply H1|apply H2]].
  revert Hrun. generalize init_Inv init_Once. generalize init as w0.
  induction acts as [|a acts IH]; intros w0 HI HO Hrun; simpl in Hrun.
  - by injection Hrun as <-.
  - destruct (step cb a w0) as [w1|] eqn:Hs; [|done].
    apply (IH w1); [|by eapply step_Once|done].
    apply (run_Inv cb [a] w0 w1); [|done]. simpl. by rewrite Hs.
Qed.

Lemma completion_callback_runs_at_most_once_witness :
  length (flags_of 0 (trace (world_after None overtaken_by_throwing_getter))) ≤ 1.
Proof.
  apply (completion_callback_runs_at_most_once None overtaken_by_throwing_getter).
  vm_compute. reflexivity.
Defined.
